(** * FlockingBehavior: the flocking engine of [Flocker.h]

    A shallow embedding of [FlockingBehavior/Flocker.h] and the properties of
    its force engine, spatial index, obstacle avoidance and integrator.

    Numbers.  The program computes in single-precision floating point.  Here
    every [float] is an idealised real number ([R]): rounding, overflow and
    underflow are not modelled, and decimal literals ([0.1f], [0.5f],
    [0.001f], [TWO_PI]) denote the decimal fractions written in the source.
    Operations that the source performs without a guard and that have no
    real value (square root of a negative number, division by zero) are
    tracked in [avoidanceDirection] with [option]: [None] is the vector
    whose components are all NaN.

    Memory.  [std::vector<Boid> *boids] is the externally owned collection;
    it is a [list Boid] passed along with the [Flocker], and a [Boid*] is an
    index into it.  The voxel cache stores such indices, and reading through
    one reads the collection as it is at that moment. *)

From Stdlib Require Import Reals Lra Lia ZArith Psatz.
From stdpp Require Import base option list gmap.

Open Scope R_scope.

(** ** Comparisons of floats

    The order and equality of real numbers are decidable (classically), so
    that [if (x < y)] of the source is [if decide (x < y)] here. *)

#[global] Instance R_eq_dec : EqDecision R := Req_dec_T.
#[global] Instance R_lt_dec (x y : R) : Decision (x < y) := Rlt_dec x y.
#[global] Instance R_le_dec (x y : R) : Decision (x <= y) := Rle_dec x y.
#[global] Instance R_gt_dec (x y : R) : Decision (x > y) := Rgt_dec x y.
#[global] Instance R_ge_dec (x y : R) : Decision (x >= y) := Rge_dec x y.

(** ** glm::vec3 *)

Record Vec3 : Type := vec3 { vx : R; vy : R; vz : R }.

Module glm.

Definition zero : Vec3 := vec3 0 0 0.
Definition add (a b : Vec3) : Vec3 := vec3 (vx a + vx b) (vy a + vy b) (vz a + vz b).
Definition sub (a b : Vec3) : Vec3 := vec3 (vx a - vx b) (vy a - vy b) (vz a - vz b).
Definition neg (a : Vec3) : Vec3 := vec3 (- vx a) (- vy a) (- vz a).
(** [s * v] and [v * s] *)
Definition scale (s : R) (a : Vec3) : Vec3 := vec3 (s * vx a) (s * vy a) (s * vz a).
(** [v / s] *)
Definition divs (a : Vec3) (s : R) : Vec3 := vec3 (vx a / s) (vy a / s) (vz a / s).
Definition dot (a b : Vec3) : R := vx a * vx b + vy a * vy b + vz a * vz b.
Definition cross (a b : Vec3) : Vec3 :=
  vec3 (vy a * vz b - vy b * vz a) (vz a * vx b - vz b * vx a) (vx a * vy b - vx b * vy a).
Definition length2 (a : Vec3) : R := dot a a.
Definition length (a : Vec3) : R := sqrt (dot a a).
(** [glm::normalize(v)] is [v * inversesqrt(dot(v, v))]; it has a real value
    only for [v] different from zero. *)
Definition normalize (a : Vec3) : Vec3 := scale (1 / sqrt (dot a a)) a.
(** [glm::any(glm::equal(a, b))]: some component of [a] equals that of [b]. *)
Definition any_equal (a b : Vec3) : bool :=
  bool_decide (vx a = vx b) || bool_decide (vy a = vy b) || bool_decide (vz a = vz b).

End glm.

Declare Scope vec_scope.
Delimit Scope vec_scope with V.
Bind Scope vec_scope with Vec3.
Infix "+" := glm.add : vec_scope.
Infix "-" := glm.sub : vec_scope.
Infix "*" := glm.scale : vec_scope.
Infix "/" := glm.divs : vec_scope.
Notation "- v" := (glm.neg v) : vec_scope.

(** [static_cast<int>(x)]: truncation toward zero. *)
Definition truncate (x : R) : Z :=
  if decide (0 <= x) then Int_part x else (- Int_part (- x))%Z.

(** [# define TWO_PI 6.28318530717958647692] *)
Definition TWO_PI : R := 628318530717958647692 / 100000000000000000000.

(** ** The random engine

    [std::mt19937] is a stream of canonical samples of [0,1): [draw] reads
    the next one.  [uniform_real_distribution<float>(a, b)] maps a sample
    [u] to [a + (b - a) * u]. *)

Definition Engine : Type := nat -> R.

Definition draw (e : Engine) : R * Engine := (e 0%nat, fun n => e (S n)).

Definition uniform_real (a b : R) (e : Engine) : R * Engine :=
  let '(u, e) := draw e in (a + (b - a) * u, e).

Definition getRandomUniform (engine : Engine) : Vec3 * Engine :=
  let '(theta, engine) := uniform_real 0 TWO_PI engine in
  let '(u, engine) := uniform_real 0 1 engine in
  let r := sqrt u in
  let '(w, engine) := uniform_real 0 1 engine in
  let z := sqrt (1 - r * r) * (if decide (w > 0.5) then -1 else 1) in
  (vec3 (r * cos theta) (r * sin theta) z, engine).

(** ** Data model *)

Inductive DistanceType : Type :=
  LINEAR | INVERSE_LINEAR | QUADRATIC | INVERSE_QUADRATIC.

(** [struct Boid]; [bsize] is the field [size]. *)
Record Boid : Type := mkBoid {
  position : Vec3;
  velocity : Vec3;
  acceleration : Vec3;
  motion_normal : Vec3;
  bsize : R;
  avoidance : bool
}.

(** [explicit Boid(glm::vec3 pos, glm::vec3 vel)] *)
Definition newBoid (pos vel : Vec3) : Boid :=
  mkBoid pos vel glm.zero (vec3 0 0 1) 1 false.

Definition set_acceleration (a : Vec3) (b : Boid) : Boid :=
  mkBoid (position b) (velocity b) a (motion_normal b) (bsize b) (avoidance b).
Definition set_velocity (v : Vec3) (b : Boid) : Boid :=
  mkBoid (position b) v (acceleration b) (motion_normal b) (bsize b) (avoidance b).
Definition set_position (p : Vec3) (b : Boid) : Boid :=
  mkBoid p (velocity b) (acceleration b) (motion_normal b) (bsize b) (avoidance b).
Definition set_avoidance (f : bool) (b : Boid) : Boid :=
  mkBoid (position b) (velocity b) (acceleration b) (motion_normal b) (bsize b) f.

(** [struct NearbyBoid]; [boid] is the index the pointer stands for. *)
Record NearbyBoid : Type := mkNearbyBoid {
  boid : nat;
  direction : Vec3;
  distance : R
}.

(** A key of the voxel cache: a [glm::vec3] whose components are integers. *)
Definition Voxel : Type := (Z * Z * Z)%type.

(** [class Flocker], without the pointer [boids]. *)
Record Flocker : Type := mkFlocker {
  PerceptionRadius : R;
  SeparationWeight : R;
  SeparationType : DistanceType;
  AlignmentWeight : R;
  CohesionWeight : R;
  SteeringWeight : R;
  SteeringTargets : list Vec3;
  SteeringTargetType : DistanceType;
  FOVAngleDeg : R;
  MaxAcceleration : R;
  MaxVelocity : R;
  CollisionRadius : R;
  CollisionCenter : Vec3;
  voxelCache : gmap Voxel (list nat);
  eng : Engine;
  FOVAngleDegCompareValue : R
}.

Definition set_PerceptionRadius (r : R) (fl : Flocker) : Flocker :=
  mkFlocker r (SeparationWeight fl) (SeparationType fl) (AlignmentWeight fl)
    (CohesionWeight fl) (SteeringWeight fl) (SteeringTargets fl)
    (SteeringTargetType fl) (FOVAngleDeg fl) (MaxAcceleration fl) (MaxVelocity fl)
    (CollisionRadius fl) (CollisionCenter fl) (voxelCache fl) (eng fl)
    (FOVAngleDegCompareValue fl).
Definition set_voxelCache (m : gmap Voxel (list nat)) (fl : Flocker) : Flocker :=
  mkFlocker (PerceptionRadius fl) (SeparationWeight fl) (SeparationType fl)
    (AlignmentWeight fl) (CohesionWeight fl) (SteeringWeight fl) (SteeringTargets fl)
    (SteeringTargetType fl) (FOVAngleDeg fl) (MaxAcceleration fl) (MaxVelocity fl)
    (CollisionRadius fl) (CollisionCenter fl) m (eng fl) (FOVAngleDegCompareValue fl).
Definition set_eng (e : Engine) (fl : Flocker) : Flocker :=
  mkFlocker (PerceptionRadius fl) (SeparationWeight fl) (SeparationType fl)
    (AlignmentWeight fl) (CohesionWeight fl) (SteeringWeight fl) (SteeringTargets fl)
    (SteeringTargetType fl) (FOVAngleDeg fl) (MaxAcceleration fl) (MaxVelocity fl)
    (CollisionRadius fl) (CollisionCenter fl) (voxelCache fl) e
    (FOVAngleDegCompareValue fl).
Definition set_FOVAngleDegCompareValue (c : R) (fl : Flocker) : Flocker :=
  mkFlocker (PerceptionRadius fl) (SeparationWeight fl) (SeparationType fl)
    (AlignmentWeight fl) (CohesionWeight fl) (SteeringWeight fl) (SteeringTargets fl)
    (SteeringTargetType fl) (FOVAngleDeg fl) (MaxAcceleration fl) (MaxVelocity fl)
    (CollisionRadius fl) (CollisionCenter fl) (voxelCache fl) (eng fl) c.

(** ** clampLength and transformDistance *)

Definition clampLength (v : Vec3) (length : R) : Vec3 :=
  let len := glm.length v in
  if decide (len > length) then (length * glm.normalize v)%V else v.

Definition transformDistance (distance : R) (type : DistanceType) : R :=
  match type with
  | LINEAR => distance
  | INVERSE_LINEAR => if decide (distance = 0) then 0 else 1 / distance
  | QUADRATIC => distance ^ 2
  | INVERSE_QUADRATIC =>
      let quad := distance ^ 2 in
      if decide (quad = 0) then 0 else 1 / quad
  end.

(** ** Spatial index *)

Definition getVoxelForBoid (fl : Flocker) (b : Boid) : Voxel :=
  let radius := Rabs (PerceptionRadius fl) in
  let p := position b in
  (truncate (vx p / radius), truncate (vy p / radius), truncate (vz p / radius)).

(** [voxelCache[k].push_back(&b)] *)
Definition push_back_at (k : Voxel) (i : nat) (m : gmap Voxel (list nat))
  : gmap Voxel (list nat) :=
  <[k := default [] (m !! k) ++ [i]]> m.

(** The loop of [buildVoxelCache]: [bs] are the boids from index [i] on. *)
Fixpoint fillVoxelCache (fl : Flocker) (i : nat) (bs : list Boid)
  (m : gmap Voxel (list nat)) : gmap Voxel (list nat) :=
  match bs with
  | [] => m
  | b :: bs' => fillVoxelCache fl (S i) bs' (push_back_at (getVoxelForBoid fl b) i m)
  end.

Definition buildVoxelCache (fl : Flocker) (boids : list Boid) : Flocker :=
  set_voxelCache (fillVoxelCache fl 0 boids ∅) fl.

(** ** Neighborhood query *)

(** [compareValue] of [checkVoxelForBoids] *)
Definition compareValue (b : Boid) (vec : Vec3) : R :=
  let l1 := glm.length vec in
  let l2 := glm.length (velocity b) in
  if bool_decide (l1 <> 0) && bool_decide (l2 <> 0)
  then glm.dot (- velocity b) vec / (l1 * l2)
  else 0.

(** The body of the loop of [checkVoxelForBoids] for the pointer [test],
    which is the index [j] and points to [t]; [i] is the address of [b]. *)
Definition checkBoid (fl : Flocker) (i : nat) (b : Boid)
  (result : list NearbyBoid) (j : nat) (t : Boid) : list NearbyBoid :=
  let p1 := position b in
  let p2 := position t in
  let vec := (p2 - p1)%V in
  let distance := glm.length vec in
  if bool_decide (i <> j) && bool_decide (distance <= PerceptionRadius fl)
     && (bool_decide (FOVAngleDegCompareValue fl > compareValue b vec)
         || bool_decide (glm.length (velocity b) = 0))
  then result ++ [mkNearbyBoid j vec distance]
  else result.

Fixpoint checkBucket (fl : Flocker) (boids : list Boid) (i : nat) (b : Boid)
  (result : list NearbyBoid) (bucket : list nat) : list NearbyBoid :=
  match bucket with
  | [] => result
  | j :: bucket' =>
      match boids !! j with
      | Some t => checkBucket fl boids i b (checkBoid fl i b result j t) bucket'
      | None => checkBucket fl boids i b result bucket'
      end
  end.

Definition checkVoxelForBoids (fl : Flocker) (boids : list Boid) (i : nat) (b : Boid)
  (result : list NearbyBoid) (voxelPos : Voxel) : list NearbyBoid :=
  match voxelCache fl !! voxelPos with
  | Some bucket => checkBucket fl boids i b result bucket
  | None => result
  end.

(** [for (int k = 0; k < 3; k++) body] *)
Definition loop3 {S : Type} (body : S -> S) (s : S) : S := body (body (body s)).

(** The bodies of the loops over [z], [y] and [x] of [getNearbyBoids]; the
    state is [result] and [voxelPos]. *)
Definition scanZ (fl : Flocker) (boids : list Boid) (i : nat) (b : Boid)
  : list NearbyBoid * Voxel -> list NearbyBoid * Voxel :=
  fun '(result, (x, y, z)) =>
    (checkVoxelForBoids fl boids i b result (x, y, z), (x, y, z + 1)%Z).

Definition scanY (fl : Flocker) (boids : list Boid) (i : nat) (b : Boid)
  : list NearbyBoid * Voxel -> list NearbyBoid * Voxel :=
  fun '(result, (x, y, z)) =>
    let '(result, (x, y, z)) := loop3 (scanZ fl boids i b) (result, (x, y, z)) in
    (result, (x, y + 1, z - 3)%Z).

Definition scanX (fl : Flocker) (boids : list Boid) (i : nat) (b : Boid)
  : list NearbyBoid * Voxel -> list NearbyBoid * Voxel :=
  fun '(result, (x, y, z)) =>
    let '(result, (x, y, z)) := loop3 (scanY fl boids i b) (result, (x, y, z)) in
    (result, (x + 1, y - 3, z)%Z).

Definition getNearbyBoids (fl : Flocker) (boids : list Boid) (i : nat) (b : Boid)
  : list NearbyBoid :=
  let '(x0, y0, z0) := getVoxelForBoid fl b in
  let voxelPos : Voxel := (x0 - 1, y0 - 1, z0 - 1)%Z in
  fst (loop3 (scanX fl boids i b) ([], voxelPos)).

(** The brute-force scan of the specification: every agent of the collection
    but [i] itself, under the same distance and field-of-view predicate. *)
Fixpoint scanAll (fl : Flocker) (i : nat) (b : Boid) (result : list NearbyBoid)
  (j : nat) (bs : list Boid) : list NearbyBoid :=
  match bs with
  | [] => result
  | t :: bs' => scanAll fl i b (checkBoid fl i b result j t) (S j) bs'
  end.

Definition bruteForceNeighbors (fl : Flocker) (boids : list Boid) (i : nat) (b : Boid)
  : list NearbyBoid :=
  scanAll fl i b [] 0 boids.

(** ** Force engine *)

(** The loop over [nearby] of [updateBoid]: the three sums and the engine. *)
Fixpoint sumNearby (fl : Flocker) (boids : list Boid) (nearby : list NearbyBoid)
  (acc : Vec3 * Vec3 * Vec3 * Engine) : Vec3 * Vec3 * Vec3 * Engine :=
  match nearby with
  | [] => acc
  | closeBoid :: rest =>
      let '(separationSum, headingSum, positionSum, e) := acc in
      let '(separationSum, e) :=
        if decide (distance closeBoid = 0) then
          let '(rnd, e) := getRandomUniform e in
          ((separationSum + 1000 * rnd)%V, e)
        else
          let separationFactor := transformDistance (distance closeBoid) (SeparationType fl) in
          ((separationSum + separationFactor * (- direction closeBoid))%V, e) in
      match boids !! boid closeBoid with
      | Some other =>
          sumNearby fl boids rest
            (separationSum, (headingSum + velocity other)%V,
             (positionSum + position other)%V, e)
      | None => sumNearby fl boids rest (separationSum, headingSum, positionSum, e)
      end
  end.

(** The loop over [SteeringTargets]: the chosen target and its curve value. *)
Fixpoint chooseTarget (fl : Flocker) (b : Boid) (targets : list Vec3)
  (acc : Vec3 * R) : Vec3 * R :=
  match targets with
  | [] => acc
  | target :: rest =>
      let '(steeringTarget, targetDistance) := acc in
      let distance :=
        transformDistance (glm.length (position b - target)%V) (SteeringTargetType fl) in
      if bool_decide (targetDistance < 0) || bool_decide (distance < targetDistance)
      then chooseTarget fl b rest (target, distance)
      else chooseTarget fl b rest (steeringTarget, targetDistance)
  end.

(** The steering term of [updateBoid]. *)
Definition steeringOf (fl : Flocker) (b : Boid) : Vec3 :=
  let '(steeringTarget, targetDistance) :=
    chooseTarget fl b (SteeringTargets fl) (position b, -1) in
  if negb (glm.any_equal steeringTarget (position b))
  then (targetDistance * glm.normalize (steeringTarget - position b))%V
  else glm.zero.

(** The four terms that [updateBoid] combines (separation, alignment,
    cohesion, steering) and the engine after the draws. *)
Definition forces (fl : Flocker) (boids : list Boid) (i : nat) (b : Boid)
  : Vec3 * Vec3 * Vec3 * Vec3 * Engine :=
  let nearby := getNearbyBoids fl boids i b in
  let '(separationSum, headingSum, positionSum, e) :=
    sumNearby fl boids nearby (glm.zero, glm.zero, glm.zero, eng fl) in
  let n := length nearby in
  let separation := if decide (0 < n)%nat then (separationSum / INR n)%V else separationSum in
  let alignment := if decide (0 < n)%nat then (headingSum / INR n)%V else headingSum in
  let avgPosition := if decide (0 < n)%nat then (positionSum / INR n)%V else position b in
  let cohesion := (avgPosition - position b)%V in
  let steering := steeringOf fl b in
  (separation, alignment, cohesion, steering, e).

(** [acceleration] of [updateBoid] before it is clamped. *)
Definition combine (fl : Flocker) (separation alignment cohesion steering : Vec3) : Vec3 :=
  let acceleration := glm.zero in
  let acceleration := (acceleration + SeparationWeight fl * separation)%V in
  let acceleration := (acceleration + AlignmentWeight fl * alignment)%V in
  let acceleration := (acceleration + CohesionWeight fl * cohesion)%V in
  let acceleration := (acceleration + SteeringWeight fl * steering)%V in
  acceleration.

(** [updateBoid(b)] for the boid at index [i]. *)
Definition updateBoid (fl : Flocker) (boids : list Boid) (i : nat)
  : Flocker * list Boid :=
  match boids !! i with
  | Some b =>
      let '(separation, alignment, cohesion, steering, e) := forces fl boids i b in
      let acceleration := combine fl separation alignment cohesion steering in
      (set_eng e fl,
       <[i := set_acceleration (clampLength acceleration (MaxAcceleration fl)) b]> boids)
  | None => (fl, boids)
  end.

(** [for (auto& boid : *boids) updateBoid(boid)] over the indices [idx]. *)
Fixpoint updateBoids (fl : Flocker) (boids : list Boid) (idx : list nat)
  : Flocker * list Boid :=
  match idx with
  | [] => (fl, boids)
  | i :: idx' => let '(fl, boids) := updateBoid fl boids i in updateBoids fl boids idx'
  end.

Definition updateAcceleration (fl : Flocker) (boids : list Boid) : Flocker * list Boid :=
  let fl := if decide (PerceptionRadius fl = 0) then set_PerceptionRadius 1 fl else fl in
  let fl := buildVoxelCache fl boids in
  updateBoids fl boids (seq 0 (length boids)).

(** ** Obstacle avoidance *)

(** A square root or a quotient without a real value is [None] (NaN). *)
Definition fsqrt (x : R) : option R := if decide (0 <= x) then Some (sqrt x) else None.
Definition fdiv (x y : R) : option R := if decide (y = 0) then None else Some (x / y).

Definition paddedRadius (fl : Flocker) : R := CollisionRadius fl + 0.5.

(** [delta] of [avoidanceDirection] *)
Definition discriminant (fl : Flocker) (b : Boid) : R :=
  let r2 := paddedRadius fl * paddedRadius fl in
  let a := glm.length2 (velocity b) in
  let b' := glm.dot (2 * velocity b) (position b - CollisionCenter fl) in
  let c := glm.length2 (position b - CollisionCenter fl) - r2 in
  b' * b' - 4 * a * c.

(** The argument of the square root that computes [s]. *)
Definition tangentArg (fl : Flocker) (b : Boid) : R :=
  paddedRadius fl * paddedRadius fl
  - glm.dot (motion_normal b) (CollisionCenter fl - position b) ^ 2.

(** [C], the centre of the sphere projected on the plane of motion. *)
Definition projectedCenter (fl : Flocker) (b : Boid) : Vec3 :=
  (CollisionCenter fl
   - glm.dot (motion_normal b) (CollisionCenter fl - position b) * motion_normal b)%V.

(** The argument of the square root that computes [cos_theta]; [None] when
    [sin_theta] is not a real number. *)
Definition cosineArg (fl : Flocker) (b : Boid) : option R :=
  s ← fsqrt (tangentArg fl b);
  sin_theta ← fdiv s (glm.length (projectedCenter fl b - position b));
  Some (1 - sin_theta * sin_theta).

(** The statements of [avoidanceDirection] after [boid.avoidance = true]:
    the tangential escape direction [u]. *)
Definition escapeDirection (fl : Flocker) (b : Boid) : option Vec3 :=
  s ← fsqrt (tangentArg fl b);
  let C := projectedCenter fl b in
  let sign :=
    if decide (glm.dot (motion_normal b) (glm.cross (C - position b) (velocity b)) > 0)
    then 1 else -1 in
  let CPlength := glm.length (C - position b) in
  sin_theta ← fdiv s CPlength;
  cos_theta ← fsqrt (1 - sin_theta * sin_theta);
  Some ((cos_theta * (C - position b)) / CPlength
        + ((sign * sin_theta) * glm.cross (motion_normal b) (C - position b)) / CPlength)%V.

(** [avoidanceDirection(boid)]: the flag it stores in [boid.avoidance] and
    the vector it returns.  The first square root of [delta] is behind
    [delta >= 0 &&]; the range check is reached only past it.  When the
    velocity is zero the quotient of the range check is 0/0, the comparison
    with NaN is false and the code goes on. *)
Definition avoidanceDirection (fl : Flocker) (b : Boid) : bool * option Vec3 :=
  let R' := paddedRadius fl in
  let a := glm.length2 (velocity b) in
  let b' := glm.dot (2 * velocity b) (position b - CollisionCenter fl) in
  let delta := discriminant fl b in
  if negb (bool_decide (delta >= 0) && bool_decide (b' + sqrt delta <= 0))
  then (false, Some (velocity b))
  else if match fdiv (- (b' + sqrt delta) * glm.length (velocity b)) (2 * a) with
          | Some reach => bool_decide (reach >= R')
          | None => false
          end
  then (false, Some (velocity b))
  else (true, escapeDirection fl b).

(** ** Integrator *)

Definition RESPONSE : R := 0.1.

(** True when the position lies strictly inside the unpadded sphere. *)
Definition insideSphere (fl : Flocker) (p : Vec3) : bool :=
  bool_decide (glm.length2 (p - CollisionCenter fl)
               < CollisionRadius fl * CollisionRadius fl).

(** [0.1f * boid.position - CollisionCenter] *)
Definition fallbackCorrection (fl : Flocker) (p : Vec3) : Vec3 :=
  (0.1 * p - CollisionCenter fl)%V.

(** The first statements of the loop of [update]: the avoidance flag is
    stored and the velocity is blended toward the escape direction.  A NaN
    vector has a NaN length, and [length(target) > 0.001f] is then false. *)
Definition steerAway (fl : Flocker) (dt : R) (b : Boid) : Boid :=
  let '(flag, target) := avoidanceDirection fl b in
  let b := set_avoidance flag b in
  match target with
  | Some target =>
      if bool_decide (glm.length target > 0.001) && avoidance b
      then set_velocity
             (velocity b
              + (dt * (glm.length (velocity b) * target - velocity b)) / RESPONSE)%V b
      else b
  | None => b
  end.

(** The body of the loop of [update] for one boid. *)
Definition integrate (fl : Flocker) (dt : R) (b : Boid) : Boid :=
  let b := steerAway fl dt b in
  let b := set_velocity
             (clampLength (velocity b + dt * acceleration b)%V (MaxVelocity fl)) b in
  let b := set_position (position b + dt * velocity b)%V b in
  if insideSphere fl (position b)
  then set_velocity (velocity b + fallbackCorrection fl (position b))%V b
  else b.

Definition update (fl : Flocker) (boids : list Boid) (dt : R) : Flocker * list Boid :=
  let fl := set_FOVAngleDegCompareValue (cos (TWO_PI * FOVAngleDeg fl / 360)) fl in
  let '(fl, boids) := updateAcceleration fl boids in
  (fl, map (integrate fl dt) boids).

(** ** Notions used by the statements *)

(** The indices, from [i] on, of the boids of [bs] whose voxel is [k]. *)
Fixpoint cellMembers (fl : Flocker) (k : Voxel) (i : nat) (bs : list Boid) : list nat :=
  match bs with
  | [] => []
  | b :: bs' =>
      (if decide (getVoxelForBoid fl b = k) then [i] else [])
        ++ cellMembers fl k (S i) bs'
  end.

(** The 27 voxels around [v], in the order [getNearbyBoids] visits them. *)
Definition offsets27 : list Voxel :=
  dx ← [-1; 0; 1]%Z; dy ← [-1; 0; 1]%Z; dz ← [-1; 0; 1]%Z; [(dx, dy, dz)].

Definition shiftVoxel (v d : Voxel) : Voxel :=
  let '(x, y, z) := v in let '(dx, dy, dz) := d in ((x + dx)%Z, (y + dy)%Z, (z + dz)%Z).

Definition block27 (v : Voxel) : list Voxel := map (shiftVoxel v) offsets27.

(** What the test of the pointer [j] adds to an empty result. *)
Definition probe (fl : Flocker) (boids : list Boid) (i : nat) (b : Boid) (j : nat)
  : list NearbyBoid :=
  match boids !! j with
  | Some t => checkBoid fl i b [] j t
  | None => []
  end.

(** What the visit of the voxel [k] adds to the result. *)
Definition scanVoxel (fl : Flocker) (boids : list Boid) (i : nat) (b : Boid) (k : Voxel)
  : list NearbyBoid :=
  flat_map (probe fl boids i b) (default [] (voxelCache fl !! k)).

(** The candidate [t], at index [j], is perceived by [b], at index [i]. *)
Definition perceives (fl : Flocker) (i : nat) (b : Boid) (j : nat) (t : Boid) : Prop :=
  i <> j
  /\ glm.length (position t - position b) <= PerceptionRadius fl
  /\ (compareValue b (position t - position b)%V < FOVAngleDegCompareValue fl
      \/ velocity b = glm.zero).

(** The acceleration of the boid [b], at index [i], before it is clamped. *)
Definition unclamped (fl : Flocker) (boids : list Boid) (i : nat) (b : Boid) : Vec3 :=
  let '(separation, alignment, cohesion, steering, _) := forces fl boids i b in
  combine fl separation alignment cohesion steering.

(** Two collections that differ in the accelerations of their boids only. *)
Definition sameKinematics (bs bs' : list Boid) : Prop :=
  Forall2 (fun b b' => b' = set_acceleration (acceleration b') b) bs bs'.

(** The flocker as [update] has it when it runs the queries: the compare
    value is set, a zero radius is replaced and the cache is built. *)
Definition configured (fl : Flocker) : Flocker :=
  let fl := set_FOVAngleDegCompareValue (cos (TWO_PI * FOVAngleDeg fl / 360)) fl in
  if decide (PerceptionRadius fl = 0) then set_PerceptionRadius 1 fl else fl.

Definition prepared (fl : Flocker) (boids : list Boid) : Flocker :=
  buildVoxelCache (configured fl) boids.

(** ** Configurations and agents of the scenarios *)

(** The defaults of [class Flocker] with the given targets, collision
    sphere and maximum velocity, an empty cache and a constant engine. *)
Definition defaultFlocker (targets : list Vec3) (center : Vec3) (radius maxVelocity : R)
  : Flocker :=
  mkFlocker 30 3.5 INVERSE_QUADRATIC 0.1 1 4 targets LINEAR 20 5 maxVelocity radius center
    ∅ (fun _ => 0) 0.

(** A fast agent far from the unit sphere at the origin, moving away. *)
Definition farFlocker : Flocker := defaultFlocker [] glm.zero 1 5.
Definition fastBoid : Boid := newBoid (vec3 100 0 0) (vec3 10 0 0).
Definition slowBoid : Boid := newBoid (vec3 100 0 0) (vec3 1 0 0).
Definition remoteBoid : Boid := newBoid (vec3 (-100) 0 0) (vec3 0 1 0).

(** An agent that moves inside the sphere of the driver, of radius 2 around
    [(-3, -3, 0)]. *)
Definition driverFlocker : Flocker := defaultFlocker [] (vec3 (-3) (-3) 0) 2 1.
Definition innerBoid : Boid := newBoid (vec3 (-3.5) (-3) 0) (vec3 (-1) 0 0).

(** The target-seeking scenario: steering weight 1, the other weights 0,
    one target at [(10, 0, 0)], a LINEAR curve, the agent at the origin. *)
Definition seekingFlocker : Flocker :=
  mkFlocker 30 0 INVERSE_QUADRATIC 0 0 1 [vec3 10 0 0] LINEAR 20 5 5 1 (vec3 0 50 0)
    ∅ (fun _ => 0) 0.
Definition originBoid : Boid := newBoid glm.zero (vec3 0 1 0).

(** An agent that dives on the unit sphere across its plane of motion. *)
Definition divingBoid : Boid := newBoid (vec3 0 0 (-2.5)) (vec3 0 0 1).

(** An agent that heads for the unit sphere within its plane of motion. *)
Definition approachingBoid : Boid := newBoid (vec3 (-2.5) 0 0) (vec3 1 0 0).

(** ** random_double

    [random_double()] draws from a [static] generator of its own, a stream
    like [Engine]; [random_double(min, max)] scales the sample.  The driver
    uses them to place new agents. *)

Definition random_double (generator : Engine) : R * Engine :=
  uniform_real 0 1 generator.

Definition random_double_range (min max : R) (generator : Engine) : R * Engine :=
  let '(u, generator) := random_double generator in
  (min + (max - min) * u, generator).

(** * Properties *)

(** ** Vectors *)

Ltac vec_unfold :=
  unfold glm.length, glm.length2, glm.normalize, glm.dot, glm.cross, glm.add, glm.sub,
    glm.scale, glm.divs, glm.neg, glm.zero in *; simpl in *.

Lemma vec3_eq (a b : Vec3) : vx a = vx b -> vy a = vy b -> vz a = vz b -> a = b.
Proof. destruct a, b; simpl; intros; subst; reflexivity. Qed.

Lemma dot_self_nonneg (a : Vec3) : 0 <= glm.dot a a.
Proof. unfold glm.dot. nra. Qed.

Lemma length_nonneg (a : Vec3) : 0 <= glm.length a.
Proof. apply sqrt_pos. Qed.

Lemma length_sqr (a : Vec3) : glm.length a * glm.length a = glm.dot a a.
Proof. apply sqrt_sqrt, dot_self_nonneg. Qed.

Lemma length_zero : glm.length glm.zero = 0.
Proof.
  unfold glm.length, glm.dot, glm.zero; simpl.
  replace (0 * 0 + 0 * 0 + 0 * 0) with 0 by ring. apply sqrt_0.
Qed.

Lemma length_eq_0 (a : Vec3) : glm.length a = 0 <-> a = glm.zero.
Proof.
  split.
  - intros H. pose proof (length_sqr a) as Hs. rewrite H in Hs.
    unfold glm.dot in Hs. apply vec3_eq; simpl; nra.
  - intros ->. apply length_zero.
Qed.

Lemma length_scale (k : R) (a : Vec3) : 0 <= k -> glm.length (k * a) = k * glm.length a.
Proof.
  intros Hk. unfold glm.length.
  replace (glm.dot (k * a) (k * a)) with ((k * k) * glm.dot a a)
    by (unfold glm.dot, glm.scale; simpl; ring).
  rewrite sqrt_mult_alt by nra. now rewrite sqrt_square.
Qed.

Lemma sqrt_le_bound (x m : R) : 0 <= m -> x <= m * m -> sqrt x <= m.
Proof.
  intros Hm Hx. rewrite <- (sqrt_square m Hm). now apply sqrt_le_1_alt.
Qed.

Lemma sqrt_gt_bound (x m : R) : 0 <= m -> m * m < x -> m < sqrt x.
Proof.
  intros Hm Hx. rewrite <- (sqrt_square m Hm). apply sqrt_lt_1_alt. nra.
Qed.

Lemma sqrt_of_square (x m : R) : 0 <= m -> x = m * m -> sqrt x = m.
Proof. intros Hm ->. now apply sqrt_square. Qed.

(** ** clampLength *)

Lemma clampLength_small (v : Vec3) (m : R) : glm.length v <= m -> clampLength v m = v.
Proof. intros H. unfold clampLength. destruct (decide _); [lra | reflexivity]. Qed.


Lemma clampLength_bound (v : Vec3) (m : R) : 0 <= m -> glm.length (clampLength v m) <= m.
Proof.
  intros Hm. unfold clampLength. destruct (decide _) as [Hgt | Hle]; [| lra].
  assert (0 < glm.length v) by lra.
  unfold glm.normalize. fold (glm.length v).
  rewrite !length_scale; [| apply Rlt_le, Rdiv_lt_0_compat; lra | lra].
  apply Req_le. field. lra.
Qed.

(** ** The first phase changes the engine and the accelerations only *)

Lemma updateBoid_flocker (fl : Flocker) (boids : list Boid) (i : nat) :
  exists e, fst (updateBoid fl boids i) = set_eng e fl.
Proof.
  unfold updateBoid. destruct (boids !! i) as [b |].
  - destruct (forces fl boids i b) as [[[[? ?] ?] ?] e]. now exists e.
  - exists (eng fl). now destruct fl.
Qed.

Lemma updateBoids_flocker (idx : list nat) (fl : Flocker) (boids : list Boid) :
  exists e, fst (updateBoids fl boids idx) = set_eng e fl.
Proof.
  revert fl boids. induction idx as [| i idx IH]; intros fl boids; simpl.
  - exists (eng fl). now destruct fl.
  - destruct (updateBoid_flocker fl boids i) as [e He].
    destruct (updateBoid fl boids i) as [fl1 boids1]. simpl in He. subst fl1.
    destruct (IH (set_eng e fl) boids1) as [e' He']. exists e'. now rewrite He'.
Qed.

Lemma updateAcceleration_flocker (fl : Flocker) (boids : list Boid) :
  exists e,
    fst (updateAcceleration fl boids)
    = set_eng e
        (buildVoxelCache
           (if decide (PerceptionRadius fl = 0) then set_PerceptionRadius 1 fl else fl)
           boids).
Proof. unfold updateAcceleration. apply updateBoids_flocker. Qed.

Lemma update_flocker (fl : Flocker) (boids : list Boid) (dt : R) :
  exists e, fst (update fl boids dt) = set_eng e (prepared fl boids).
Proof.
  unfold update, prepared, configured.
  destruct (updateAcceleration_flocker
              (set_FOVAngleDegCompareValue (cos (TWO_PI * FOVAngleDeg fl / 360)) fl) boids)
    as [e He].
  destruct (updateAcceleration _ boids) as [fl1 boids1]. simpl in He |- *.
  now exists e.
Qed.

Lemma update_boids (fl : Flocker) (boids : list Boid) (dt : R) :
  snd (update fl boids dt)
  = map (integrate (fst (update fl boids dt)) dt)
      (snd (updateAcceleration
              (set_FOVAngleDegCompareValue (cos (TWO_PI * FOVAngleDeg fl / 360)) fl) boids)).
Proof.
  unfold update. now destruct (updateAcceleration _ boids) as [fl1 boids1].
Qed.

Lemma prepared_radius (fl : Flocker) (boids : list Boid) :
  PerceptionRadius (prepared fl boids)
  = if decide (PerceptionRadius fl = 0) then 1 else PerceptionRadius fl.
Proof.
  unfold prepared, configured; simpl. now destruct (decide (PerceptionRadius fl = 0)).
Qed.

Lemma configured_radius_nonzero (fl : Flocker) : PerceptionRadius (configured fl) <> 0.
Proof.
  change (PerceptionRadius (configured fl)) with (PerceptionRadius (prepared fl [])).
  rewrite prepared_radius. destruct (decide _); lra.
Qed.


(** ** Zero perception radius *)



(** C10. After [update] the stored [PerceptionRadius] is 1 when it was 0
    before the call, and is the value it had when that was not 0. *)
Theorem radius_substitution_persists (fl : Flocker) (boids : list Boid) (dt : R) :
  (PerceptionRadius fl = 0 -> PerceptionRadius (fst (update fl boids dt)) = 1)
  /\ (PerceptionRadius fl <> 0 ->
      PerceptionRadius (fst (update fl boids dt)) = PerceptionRadius fl).
Proof.
  destruct (update_flocker fl boids dt) as [e ->].
  change (PerceptionRadius (set_eng e (prepared fl boids)))
    with (PerceptionRadius (prepared fl boids)).
  rewrite prepared_radius.
  split; intros H; destruct (decide _); congruence.
Qed.

Lemma radius_substitution_persists_witness :
  let fl0 := mkFlocker 0 3.5 INVERSE_QUADRATIC 0.1 1 4 [] LINEAR 20 5 5 1 glm.zero ∅
               (fun _ => 0) 0 in
  let fl30 := set_PerceptionRadius 30 fl0 in
  let boids := [newBoid (vec3 1 0 0) (vec3 1 0 0)] in
  PerceptionRadius (fst (update fl0 boids 1)) = 1
  /\ PerceptionRadius (fst (update fl30 boids 1)) = 30.
Proof.
  intros fl0 fl30 boids. split.
  - apply (radius_substitution_persists fl0 boids 1). reflexivity.
  - apply (radius_substitution_persists fl30 boids 1). simpl. lra.
Defined.

(** ** The acceleration bound *)





(** ** The neighborhood query as a scan of index lists *)

Lemma checkBoid_app (fl : Flocker) (i : nat) (b : Boid) (result : list NearbyBoid)
  (j : nat) (t : Boid) :
  checkBoid fl i b result j t = result ++ checkBoid fl i b [] j t.
Proof.
  unfold checkBoid. destruct (_ && _ && _); simpl; [reflexivity | now rewrite app_nil_r].
Qed.

Lemma checkBucket_app (fl : Flocker) (boids : list Boid) (i : nat) (b : Boid)
  (bucket : list nat) (result : list NearbyBoid) :
  checkBucket fl boids i b result bucket
  = result ++ flat_map (probe fl boids i b) bucket.
Proof.
  revert result. induction bucket as [| j bucket IH]; intros result; simpl.
  - now rewrite app_nil_r.
  - unfold probe at 1. destruct (boids !! j) as [t |].
    + rewrite IH, checkBoid_app. now rewrite <- app_assoc.
    + apply IH.
Qed.

Lemma checkVoxelForBoids_app (fl : Flocker) (boids : list Boid) (i : nat) (b : Boid)
  (result : list NearbyBoid) (k : Voxel) :
  checkVoxelForBoids fl boids i b result k = result ++ scanVoxel fl boids i b k.
Proof.
  unfold checkVoxelForBoids, scanVoxel. destruct (voxelCache fl !! k) as [bucket |]; simpl.
  - apply checkBucket_app.
  - now rewrite app_nil_r.
Qed.

Lemma z_loop (fl : Flocker) (boids : list Boid) (i : nat) (b : Boid)
  (result : list NearbyBoid) (x y z : Z) :
  loop3 (scanZ fl boids i b) (result, (x, y, z))
  = (result
       ++ flat_map (scanVoxel fl boids i b) [(x, y, z); (x, y, z + 1); (x, y, z + 2)]%Z,
     (x, y, z + 3)%Z).
Proof.
  unfold loop3, scanZ. rewrite !checkVoxelForBoids_app.
  cbn [flat_map]. rewrite app_nil_r, <- !app_assoc.
  replace (z + 1 + 1)%Z with (z + 2)%Z by lia.
  replace (z + 2 + 1)%Z with (z + 3)%Z by lia.
  reflexivity.
Qed.

Lemma y_loop (fl : Flocker) (boids : list Boid) (i : nat) (b : Boid)
  (result : list NearbyBoid) (x y z : Z) :
  loop3 (scanY fl boids i b) (result, (x, y, z))
  = (result
       ++ flat_map (scanVoxel fl boids i b)
            [(x, y, z); (x, y, z + 1); (x, y, z + 2);
             (x, y + 1, z); (x, y + 1, z + 1); (x, y + 1, z + 2);
             (x, y + 2, z); (x, y + 2, z + 1); (x, y + 2, z + 2)]%Z,
     (x, y + 3, z)%Z).
Proof.
  unfold loop3 at 1, scanY.
  rewrite z_loop. replace (z + 3 - 3)%Z with z by lia.
  rewrite z_loop. replace (z + 3 - 3)%Z with z by lia.
  rewrite z_loop. replace (z + 3 - 3)%Z with z by lia.
  replace (y + 1 + 1)%Z with (y + 2)%Z by lia.
  replace (y + 2 + 1)%Z with (y + 3)%Z by lia.
  cbn [flat_map]. rewrite !app_nil_r, <- !app_assoc. reflexivity.
Qed.

Lemma x_loop (fl : Flocker) (boids : list Boid) (i : nat) (b : Boid)
  (result : list NearbyBoid) (x y z : Z) :
  fst (loop3 (scanX fl boids i b) (result, (x, y, z)))
  = result
      ++ flat_map (scanVoxel fl boids i b)
           (flat_map (fun x' =>
              flat_map (fun y' => [(x', y', z); (x', y', z + 1); (x', y', z + 2)]%Z)
                [y; y + 1; y + 2]%Z) [x; x + 1; x + 2]%Z).
Proof.
  unfold loop3 at 1, scanX.
  rewrite y_loop. replace (y + 3 - 3)%Z with y by lia.
  rewrite y_loop. replace (y + 3 - 3)%Z with y by lia.
  rewrite y_loop. replace (y + 3 - 3)%Z with y by lia.
  replace (x + 1 + 1)%Z with (x + 2)%Z by lia.
  cbn [flat_map fst app]. rewrite !app_nil_r, <- !app_assoc. reflexivity.
Qed.

Lemma getNearbyBoids_block (fl : Flocker) (boids : list Boid) (i : nat) (b : Boid) :
  getNearbyBoids fl boids i b
  = flat_map (scanVoxel fl boids i b) (block27 (getVoxelForBoid fl b)).
Proof.
  unfold getNearbyBoids. destruct (getVoxelForBoid fl b) as [[x y] z].
  rewrite x_loop. cbn [app]. f_equal.
  unfold block27, offsets27, shiftVoxel. cbn [mbind list_bind flat_map map app mret list_ret].
  replace (x - 1 + 1)%Z with (x + 0)%Z by lia.
  replace (x - 1 + 2)%Z with (x + 1)%Z by lia.
  replace (x - 1)%Z with (x + -1)%Z by lia.
  replace (y - 1 + 1)%Z with (y + 0)%Z by lia.
  replace (y - 1 + 2)%Z with (y + 1)%Z by lia.
  replace (y - 1)%Z with (y + -1)%Z by lia.
  replace (z - 1 + 1)%Z with (z + 0)%Z by lia.
  replace (z - 1 + 2)%Z with (z + 1)%Z by lia.
  replace (z - 1)%Z with (z + -1)%Z by lia.
  reflexivity.
Qed.

(** ** The voxel cache holds every boid once, in the cell of its position *)

Lemma fillVoxelCache_lookup (fl : Flocker) (bs : list Boid) (i : nat)
  (m : gmap Voxel (list nat)) (k : Voxel) :
  default [] (fillVoxelCache fl i bs m !! k)
  = default [] (m !! k) ++ cellMembers fl k i bs.
Proof.
  revert i m. induction bs as [| b bs IH]; intros i m; simpl.
  - now rewrite app_nil_r.
  - rewrite IH. unfold push_back_at.
    destruct (decide (getVoxelForBoid fl b = k)) as [-> | Hne].
    + rewrite lookup_insert_eq. simpl. now rewrite <- app_assoc.
    + rewrite lookup_insert_ne by exact Hne. reflexivity.
Qed.

Lemma buildVoxelCache_lookup (fl : Flocker) (boids : list Boid) (k : Voxel) :
  default [] (voxelCache (buildVoxelCache fl boids) !! k) = cellMembers fl k 0 boids.
Proof.
  unfold buildVoxelCache. simpl. rewrite fillVoxelCache_lookup.
  now rewrite lookup_empty.
Qed.

Lemma cellMembers_elem (fl : Flocker) (k : Voxel) (bs : list Boid) (i j : nat) :
  j ∈ cellMembers fl k i bs
  <-> (i <= j)%nat /\ exists t, bs !! (j - i)%nat = Some t /\ getVoxelForBoid fl t = k.
Proof.
  revert i. induction bs as [| b bs IH]; intros i; simpl.
  - split; [intros H; inversion H | intros [_ [t [H _]]]; discriminate].
  - rewrite elem_of_app, IH. split.
    + intros [H | [Hle [t [Ht Hk]]]].
      * destruct (decide (getVoxelForBoid fl b = k)) as [Hk |]; [| inversion H].
        apply list_elem_of_singleton in H. subst j. split; [lia |].
        exists b. now rewrite Nat.sub_diag.
      * split; [lia |]. exists t. split; [| exact Hk].
        replace (j - i)%nat with (S (j - S i)) by lia. exact Ht.
    + intros [Hle [t [Ht Hk]]]. destruct (decide (j = i)) as [-> | Hne].
      * left. rewrite Nat.sub_diag in Ht. simpl in Ht. injection Ht as ->.
        rewrite decide_True by exact Hk. now apply list_elem_of_singleton.
      * right. split; [lia |]. exists t. split; [| exact Hk].
        replace (j - i)%nat with (S (j - S i)) in Ht by lia. exact Ht.
Qed.

Lemma cellMembers_NoDup (fl : Flocker) (k : Voxel) (bs : list Boid) (i : nat) :
  NoDup (cellMembers fl k i bs).
Proof.
  revert i. induction bs as [| b bs IH]; intros i; simpl.
  - constructor.
  - destruct (decide (getVoxelForBoid fl b = k)); simpl; [| apply IH].
    constructor; [| apply IH].
    rewrite cellMembers_elem. intros [Hle _]. lia.
Qed.

Lemma cellMembers_0_elem (fl : Flocker) (k : Voxel) (boids : list Boid) (j : nat) :
  j ∈ cellMembers fl k 0 boids
  <-> exists t, boids !! j = Some t /\ getVoxelForBoid fl t = k.
Proof.
  rewrite cellMembers_elem, Nat.sub_0_r. split.
  - now intros [_ H].
  - intros H. split; [lia | exact H].
Qed.

(** ** The block of 27 voxels *)

Lemma offsets27_NoDup : NoDup offsets27.
Proof. apply (bool_decide_unpack _). vm_compute. exact I. Qed.

Lemma shiftVoxel_inj (v : Voxel) : Inj (=) (=) (shiftVoxel v).
Proof.
  intros [[dx dy] dz] [[ex ey] ez]. destruct v as [[x y] z]. unfold shiftVoxel.
  intros H. injection H as Hx Hy Hz. repeat f_equal; lia.
Qed.

Lemma block27_NoDup (v : Voxel) : NoDup (block27 v).
Proof.
  unfold block27. pose proof (shiftVoxel_inj v).
  apply (NoDup_fmap_2 (shiftVoxel v)), offsets27_NoDup.
Qed.

Lemma block27_elem (x y z x' y' z' : Z) :
  (x', y', z') ∈ block27 (x, y, z)
  <-> (-1 <= x' - x <= 1 /\ -1 <= y' - y <= 1 /\ -1 <= z' - z <= 1)%Z.
Proof.
  unfold block27. rewrite list_elem_of_fmap. split.
  - intros [[[dx dy] dz] [Heq Hin]]. unfold shiftVoxel in Heq. injection Heq as -> -> ->.
    unfold offsets27 in Hin.
    repeat (apply elem_of_cons in Hin as [Hin | Hin];
            [injection Hin as -> -> ->; lia |]).
    inversion Hin.
  - intros (Hx & Hy & Hz). exists ((x' - x)%Z, (y' - y)%Z, (z' - z)%Z). split.
    + unfold shiftVoxel. repeat f_equal; lia.
    + assert (x' - x = -1 \/ x' - x = 0 \/ x' - x = 1)%Z as Hx' by lia.
      assert (y' - y = -1 \/ y' - y = 0 \/ y' - y = 1)%Z as Hy' by lia.
      assert (z' - z = -1 \/ z' - z = 0 \/ z' - z = 1)%Z as Hz' by lia.
      destruct Hx' as [-> | [-> | ->]], Hy' as [-> | [-> | ->]], Hz' as [-> | [-> | ->]];
        apply (bool_decide_unpack _); vm_compute; exact I.
Qed.

(** ** Truncation toward zero moves by at most one cell per unit *)

Lemma truncate_bounds (x : R) :
  (0 <= x -> IZR (truncate x) <= x < IZR (truncate x) + 1 /\ (0 <= truncate x)%Z)
  /\ (x < 0 -> IZR (truncate x) - 1 < x <= IZR (truncate x) /\ (truncate x <= 0)%Z).
Proof.
  unfold truncate. split; intros Hx.
  - rewrite decide_True by lra.
    destruct (base_Int_part x) as [H1 H2]. split; [lra |].
    assert (-1 < Int_part x)%Z by (apply lt_IZR; lra). lia.
  - rewrite decide_False by lra.
    destruct (base_Int_part (- x)) as [H1 H2]. rewrite opp_IZR. split; [lra |].
    assert (-1 < Int_part (- x))%Z by (apply lt_IZR; lra). lia.
Qed.

Lemma truncate_close (x y : R) :
  -1 <= y - x <= 1 -> (-1 <= truncate y - truncate x <= 1)%Z.
Proof.
  intros Hxy.
  destruct (truncate_bounds x) as [Hx0 Hx1], (truncate_bounds y) as [Hy0 Hy1].
  assert (-2 < IZR (truncate y - truncate x) < 2) as [Hlo Hhi].
  { rewrite minus_IZR.
    destruct (Rle_lt_dec 0 x) as [Hx | Hx], (Rle_lt_dec 0 y) as [Hy | Hy].
    - destruct (Hx0 Hx) as [? _], (Hy0 Hy) as [? _]. lra.
    - destruct (Hx0 Hx) as [? Hzx], (Hy1 Hy) as [? Hzy].
      apply IZR_le in Hzx, Hzy. lra.
    - destruct (Hx1 Hx) as [? Hzx], (Hy0 Hy) as [? Hzy].
      apply IZR_le in Hzx, Hzy. lra.
    - destruct (Hx1 Hx) as [? _], (Hy1 Hy) as [? _]. lra. }
  apply lt_IZR in Hlo, Hhi. lia.
Qed.

Lemma component_bound (d : Vec3) (r : R) :
  glm.length d <= r -> (- r <= vx d <= r) /\ (- r <= vy d <= r) /\ (- r <= vz d <= r).
Proof.
  intros H. pose proof (length_nonneg d) as H0. pose proof (length_sqr d) as Hs.
  unfold glm.dot in Hs.
  assert (glm.length d * glm.length d <= r * r) by nra.
  repeat split; nra.
Qed.

Lemma quotient_close (p q r : R) : 0 < r -> - r <= q - p <= r -> -1 <= q / r - p / r <= 1.
Proof.
  intros Hr [H1 H2].
  replace (q / r - p / r) with ((q - p) / r) by (field; lra).
  split.
  - apply Rmult_le_reg_r with r; [lra |]. unfold Rdiv.
    rewrite Rmult_assoc, Rinv_l by lra. lra.
  - apply Rmult_le_reg_r with r; [lra |]. unfold Rdiv.
    rewrite Rmult_assoc, Rinv_l by lra. lra.
Qed.

(** A candidate within the perception radius lies in the block of 27
    voxels around the voxel of the agent. *)
Lemma within_radius_in_block (fl : Flocker) (b t : Boid) :
  PerceptionRadius fl <> 0 ->
  glm.length (position t - position b) <= PerceptionRadius fl ->
  getVoxelForBoid fl t ∈ block27 (getVoxelForBoid fl b).
Proof.
  intros Hr Hd. pose proof (length_nonneg (position t - position b)) as H0.
  assert (0 < PerceptionRadius fl) as Hpos by lra.
  destruct (component_bound _ _ Hd) as (Hx & Hy & Hz). simpl in Hx, Hy, Hz.
  unfold getVoxelForBoid. rewrite Rabs_pos_eq by lra.
  apply block27_elem. repeat split; apply truncate_close, quotient_close; lra.
Qed.

(** ** The test of one candidate *)

Lemma checkBoid_elem (fl : Flocker) (i : nat) (b : Boid) (j : nat) (t : Boid)
  (nb : NearbyBoid) :
  nb ∈ checkBoid fl i b [] j t
  <-> perceives fl i b j t
      /\ nb = mkNearbyBoid j (position t - position b)
                (glm.length (position t - position b)).
Proof.
  unfold checkBoid, perceives. rewrite <- length_eq_0.
  destruct (_ && _ && _) eqn:E; simpl.
  - apply andb_prop in E as [E E3]. apply andb_prop in E as [E1 E2].
    apply bool_decide_eq_true in E1, E2. apply orb_prop in E3.
    rewrite list_elem_of_singleton. split; [| tauto].
    intros ->. repeat split; try assumption.
    destruct E3 as [E3 | E3]; apply bool_decide_eq_true in E3; [left; lra | now right].
  - split; [intros H; inversion H |].
    intros [(H1 & H2 & H3) _]. exfalso.
    rewrite (bool_decide_eq_true_2 _ H1), (bool_decide_eq_true_2 _ H2) in E. simpl in E.
    apply orb_false_elim in E as [E3 E4].
    apply bool_decide_eq_false in E3, E4. destruct H3; [lra | contradiction].
Qed.

Lemma checkBoid_cases (fl : Flocker) (i : nat) (b : Boid) (j : nat) (t : Boid) :
  checkBoid fl i b [] j t = []
  \/ checkBoid fl i b [] j t
     = [mkNearbyBoid j (position t - position b) (glm.length (position t - position b))].
Proof. unfold checkBoid. destruct (_ && _ && _); simpl; auto. Qed.

Lemma probe_elem (fl : Flocker) (boids : list Boid) (i : nat) (b : Boid) (j : nat)
  (nb : NearbyBoid) :
  nb ∈ probe fl boids i b j
  <-> exists t, boids !! j = Some t /\ perceives fl i b j t
                /\ nb = mkNearbyBoid j (position t - position b)
                          (glm.length (position t - position b)).
Proof.
  unfold probe. destruct (boids !! j) as [t |].
  - rewrite checkBoid_elem. split.
    + intros H. now exists t.
    + intros [t' [Heq H]]. now injection Heq as ->.
  - split; [intros H; inversion H | intros [t [H _]]; discriminate].
Qed.

(** ** The indexed query and the brute-force scan visit the same candidates *)

Lemma flat_map_bind {A B : Type} (f : A -> list B) (l : list A) : flat_map f l = l ≫= f.
Proof. induction l as [| x l IH]; [reflexivity |]. simpl. now rewrite IH. Qed.

Lemma scanAll_probe (fl : Flocker) (boids : list Boid) (i : nat) (b : Boid)
  (bs pre : list Boid) (result : list NearbyBoid) :
  boids = pre ++ bs ->
  scanAll fl i b result (length pre) bs
  = result ++ flat_map (probe fl boids i b) (seq (length pre) (length bs)).
Proof.
  revert pre result. induction bs as [| t bs IH]; intros pre result Heq; simpl.
  - now rewrite app_nil_r.
  - specialize (IH (pre ++ [t]) (checkBoid fl i b result (length pre) t)).
    rewrite length_app in IH. simpl in IH. rewrite Nat.add_1_r in IH.
    rewrite IH by (rewrite <- app_assoc; exact Heq).
    rewrite checkBoid_app, <- app_assoc. do 2 f_equal.
    unfold probe. rewrite Heq, lookup_app_r by lia.
    now rewrite Nat.sub_diag.
Qed.

Lemma bruteForceNeighbors_probe (fl : Flocker) (boids : list Boid) (i : nat) (b : Boid) :
  bruteForceNeighbors fl boids i b
  = flat_map (probe fl boids i b) (seq 0 (length boids)).
Proof. unfold bruteForceNeighbors. now apply (scanAll_probe fl boids i b boids []). Qed.

Lemma indexedQuery_probe (fl : Flocker) (boids : list Boid) (i : nat) (b : Boid) :
  getNearbyBoids (buildVoxelCache fl boids) boids i b
  = flat_map (probe fl boids i b)
      (flat_map (fun k => cellMembers fl k 0 boids) (block27 (getVoxelForBoid fl b))).
Proof.
  rewrite getNearbyBoids_block.
  change (getVoxelForBoid (buildVoxelCache fl boids) b) with (getVoxelForBoid fl b).
  induction (block27 (getVoxelForBoid fl b)) as [| k ks IH]; simpl.
  - reflexivity.
  - rewrite flat_map_app, <- IH. f_equal.
    unfold scanVoxel. now rewrite buildVoxelCache_lookup.
Qed.

Lemma probe_NoDup (fl : Flocker) (boids : list Boid) (i : nat) (b : Boid) (j : nat) :
  NoDup (probe fl boids i b j).
Proof.
  unfold probe. destruct (boids !! j) as [t |]; [| constructor].
  destruct (checkBoid_cases fl i b j t) as [-> | ->];
    [constructor | apply NoDup_singleton].
Qed.

Lemma probe_index (fl : Flocker) (boids : list Boid) (i : nat) (b : Boid) (j : nat)
  (nb : NearbyBoid) :
  nb ∈ probe fl boids i b j -> boid nb = j.
Proof. rewrite probe_elem. now intros (t & _ & _ & ->). Qed.

Lemma flat_map_probe_NoDup (fl : Flocker) (boids : list Boid) (i : nat) (b : Boid)
  (l : list nat) :
  NoDup l -> NoDup (flat_map (probe fl boids i b) l).
Proof.
  intros Hl. rewrite flat_map_bind. apply NoDup_bind; [| | exact Hl].
  - intros j1 j2 nb _ _ H1 H2. apply probe_index in H1, H2. congruence.
  - intros j _. apply probe_NoDup.
Qed.

Lemma blockMembers_NoDup (fl : Flocker) (boids : list Boid) (v : Voxel) :
  NoDup (flat_map (fun k => cellMembers fl k 0 boids) (block27 v)).
Proof.
  rewrite flat_map_bind. apply NoDup_bind; [| | apply block27_NoDup].
  - intros k1 k2 j _ _ H1 H2. apply cellMembers_0_elem in H1 as (t1 & Ht1 & <-).
    apply cellMembers_0_elem in H2 as (t2 & Ht2 & <-). congruence.
  - intros k _. apply cellMembers_NoDup.
Qed.

Lemma query_permutation (fl : Flocker) (boids : list Boid) (i : nat) (b : Boid) :
  PerceptionRadius fl <> 0 ->
  getNearbyBoids (buildVoxelCache fl boids) boids i b ≡ₚ bruteForceNeighbors fl boids i b.
Proof.
  intros Hr. rewrite indexedQuery_probe, bruteForceNeighbors_probe.
  apply NoDup_Permutation.
  - apply flat_map_probe_NoDup, blockMembers_NoDup.
  - apply flat_map_probe_NoDup, NoDup_seq.
  - intros nb. rewrite !flat_map_bind, !list_elem_of_bind. split.
    + intros (j & Hnb & Hj). exists j. split; [exact Hnb |].
      apply probe_elem in Hnb as (t & Ht & _). apply elem_of_seq.
      apply lookup_lt_Some in Ht. lia.
    + intros (j & Hnb & _). exists j. split; [exact Hnb |].
      apply probe_elem in Hnb as (t & Ht & (_ & Hd & _) & _).
      apply list_elem_of_bind. exists (getVoxelForBoid fl t). split.
      * apply cellMembers_0_elem. now exists t.
      * now apply within_radius_in_block.
Qed.

Lemma bruteForceNeighbors_elem (fl : Flocker) (boids : list Boid) (i : nat) (b : Boid)
  (nb : NearbyBoid) :
  nb ∈ bruteForceNeighbors fl boids i b
  <-> exists j t, boids !! j = Some t /\ perceives fl i b j t
                  /\ nb = mkNearbyBoid j (position t - position b)
                            (glm.length (position t - position b)).
Proof.
  rewrite bruteForceNeighbors_probe, flat_map_bind, list_elem_of_bind. split.
  - intros (j & Hnb & _). exists j. now apply probe_elem.
  - intros (j & t & Ht & H). exists j. split.
    + apply probe_elem. now exists t.
    + apply elem_of_seq. apply lookup_lt_Some in Ht. lia.
Qed.

Lemma query_elem (fl : Flocker) (boids : list Boid) (i : nat) (b : Boid) (nb : NearbyBoid) :
  PerceptionRadius fl <> 0 ->
  nb ∈ getNearbyBoids (buildVoxelCache fl boids) boids i b
  <-> exists j t, boids !! j = Some t /\ perceives fl i b j t
                  /\ nb = mkNearbyBoid j (position t - position b)
                            (glm.length (position t - position b)).
Proof.
  intros Hr. rewrite <- bruteForceNeighbors_elem.
  now rewrite (query_permutation fl boids i b Hr).
Qed.



(** The query of a step, for every configured radius: [update] builds the
    index after it has replaced a zero radius. *)
Lemma query_permutation_in_step (fl : Flocker) (boids : list Boid) (i : nat) (b : Boid) :
  getNearbyBoids (prepared fl boids) boids i b
  ≡ₚ bruteForceNeighbors (configured fl) boids i b.
Proof. apply query_permutation, configured_radius_nonzero. Qed.

(** ** The inclusion predicate *)




(** ** The first phase, boid by boid *)

Lemma sameKinematics_refl (bs : list Boid) : sameKinematics bs bs.
Proof. unfold sameKinematics. apply Forall2_same_length_lookup_2; [reflexivity |].
  intros j b b' H1 H2. rewrite H1 in H2. injection H2 as <-. now destruct b.
Qed.

Lemma sameKinematics_lookup (bs bs' : list Boid) (j : nat) (t : Boid) :
  sameKinematics bs bs' -> bs !! j = Some t ->
  exists a, bs' !! j = Some (set_acceleration a t).
Proof.
  intros H Ht. destruct (Forall2_lookup_l _ _ _ _ _ H Ht) as (t' & Ht' & Heq).
  exists (acceleration t'). now rewrite Ht', Heq at 1.
Qed.

Lemma sameKinematics_lookup_None (bs bs' : list Boid) (j : nat) :
  sameKinematics bs bs' -> bs !! j = None -> bs' !! j = None.
Proof.
  intros H Hn. apply lookup_ge_None. apply lookup_ge_None in Hn.
  now rewrite <- (Forall2_length _ _ _ H).
Qed.

Lemma sameKinematics_insert (bs : list Boid) (i : nat) (b : Boid) (a : Vec3) :
  bs !! i = Some b -> sameKinematics bs (<[i := set_acceleration a b]> bs).
Proof.
  intros Hb. unfold sameKinematics. apply Forall2_same_length_lookup_2.
  - now rewrite length_insert.
  - intros j t t' Ht Ht'. destruct (decide (i = j)) as [-> | Hne].
    + rewrite list_lookup_insert_eq in Ht' by (now apply lookup_lt_Some with b).
      injection Ht' as <-. rewrite Hb in Ht. now injection Ht as ->.
    + rewrite list_lookup_insert_ne in Ht' by exact Hne.
      rewrite Ht in Ht'. injection Ht' as <-. now destruct t.
Qed.

Lemma sameKinematics_trans (bs1 bs2 bs3 : list Boid) :
  sameKinematics bs1 bs2 -> sameKinematics bs2 bs3 -> sameKinematics bs1 bs3.
Proof.
  intros H12 H23. unfold sameKinematics. apply Forall2_same_length_lookup_2.
  - now rewrite (Forall2_length _ _ _ H12), (Forall2_length _ _ _ H23).
  - intros j t1 t3 H1 H3.
    destruct (sameKinematics_lookup _ _ _ _ H12 H1) as [a2 H2].
    destruct (sameKinematics_lookup _ _ _ _ H23 H2) as [a3 H3'].
    rewrite H3 in H3'. injection H3' as ->. reflexivity.
Qed.

Lemma probe_sameKinematics (fl : Flocker) (bs bs' : list Boid) (i : nat) (b : Boid) (j : nat) :
  sameKinematics bs bs' -> probe fl bs' i b j = probe fl bs i b j.
Proof.
  intros H. unfold probe. destruct (bs !! j) as [t |] eqn:Ht.
  - destruct (sameKinematics_lookup _ _ _ _ H Ht) as [a ->]. reflexivity.
  - now rewrite (sameKinematics_lookup_None _ _ _ H Ht).
Qed.

Lemma getNearbyBoids_sameKinematics (fl : Flocker) (bs bs' : list Boid) (i : nat) (b : Boid) :
  sameKinematics bs bs' -> getNearbyBoids fl bs' i b = getNearbyBoids fl bs i b.
Proof.
  intros H. rewrite !getNearbyBoids_block. apply flat_map_ext. intros k.
  unfold scanVoxel. apply flat_map_ext. intros j. now apply probe_sameKinematics.
Qed.

Lemma sumNearby_sameKinematics (fl : Flocker) (bs bs' : list Boid)
  (nearby : list NearbyBoid) (acc : Vec3 * Vec3 * Vec3 * Engine) :
  sameKinematics bs bs' -> sumNearby fl bs' nearby acc = sumNearby fl bs nearby acc.
Proof.
  intros H. revert acc. induction nearby as [| nb nearby IH]; intros acc; simpl.
  - reflexivity.
  - destruct acc as [[[s h] p] e].
    destruct (decide (distance nb = 0)).
    + destruct (getRandomUniform e) as [rnd e'].
      destruct (bs !! boid nb) as [t |] eqn:Ht.
      * destruct (sameKinematics_lookup _ _ _ _ H Ht) as [a ->]. apply IH.
      * rewrite (sameKinematics_lookup_None _ _ _ H Ht). apply IH.
    + destruct (bs !! boid nb) as [t |] eqn:Ht.
      * destruct (sameKinematics_lookup _ _ _ _ H Ht) as [a ->]. apply IH.
      * rewrite (sameKinematics_lookup_None _ _ _ H Ht). apply IH.
Qed.

Lemma unclamped_sameKinematics (fl : Flocker) (bs bs' : list Boid) (i : nat) (b : Boid) :
  sameKinematics bs bs' -> unclamped fl bs' i b = unclamped fl bs i b.
Proof.
  intros H. unfold unclamped, forces.
  rewrite (getNearbyBoids_sameKinematics _ _ _ _ _ H).
  now rewrite (sumNearby_sameKinematics _ _ _ _ _ H).
Qed.

Lemma set_eng_same (fl : Flocker) : set_eng (eng fl) fl = fl.
Proof. now destruct fl. Qed.

Lemma updateBoid_eq (fl : Flocker) (boids : list Boid) (i : nat) (b : Boid) :
  boids !! i = Some b ->
  exists e,
    updateBoid fl boids i
    = (set_eng e fl,
       <[i := set_acceleration
                (clampLength (unclamped fl boids i b) (MaxAcceleration fl)) b]> boids).
Proof.
  intros Hb. unfold updateBoid, unclamped. rewrite Hb.
  destruct (forces fl boids i b) as [[[[sep ali] coh] ste] e]. now exists e.
Qed.

Lemma updateBoids_lookup (idx : list nat) (fl : Flocker) (boids : list Boid) :
  NoDup idx ->
  sameKinematics boids (snd (updateBoids fl boids idx))
  /\ forall i b, boids !! i = Some b ->
       (i ∉ idx -> snd (updateBoids fl boids idx) !! i = Some b)
       /\ (i ∈ idx ->
           exists e,
             snd (updateBoids fl boids idx) !! i
             = Some (set_acceleration
                       (clampLength (unclamped (set_eng e fl) boids i b)
                          (MaxAcceleration fl)) b)).
Proof.
  revert fl boids. induction idx as [| i0 idx IH]; intros fl boids Hnd; simpl.
  - split; [apply sameKinematics_refl |]. intros i b Hb. split; [easy |].
    intros H. inversion H.
  - apply NoDup_cons in Hnd as [Hi0 Hnd].
    destruct (boids !! i0) as [b0 |] eqn:Hb0.
    + destruct (updateBoid_eq fl boids i0 b0 Hb0) as [e0 ->].
      set (boids1 := <[i0 := _]> boids).
      assert (sameKinematics boids boids1) as Hk by now apply sameKinematics_insert.
      destruct (IH (set_eng e0 fl) boids1 Hnd) as [Hk1 Hl].
      split; [now apply sameKinematics_trans with boids1 |].
      intros i b Hb. destruct (decide (i = i0)) as [-> | Hne].
      * rewrite Hb0 in Hb. injection Hb as <-.
        assert (boids1 !! i0
                = Some (set_acceleration
                          (clampLength (unclamped fl boids i0 b0) (MaxAcceleration fl)) b0))
          as Hb1 by (apply list_lookup_insert_eq; now apply lookup_lt_Some with b0).
        destruct (Hl _ _ Hb1) as [Hout _]. split.
        -- intros Hn. exfalso. apply Hn. now left.
        -- intros _. exists (eng fl). rewrite set_eng_same. now apply Hout.
      * assert (boids1 !! i = Some b) as Hb1
          by (unfold boids1; now rewrite list_lookup_insert_ne).
        destruct (Hl _ _ Hb1) as [Hout Hin]. split.
        -- intros Hn. apply Hout. intros H. apply Hn. now right.
        -- intros H. apply elem_of_cons in H as [H | H]; [contradiction |].
           destruct (Hin H) as [e He]. exists e. rewrite He.
           change (set_eng e (set_eng e0 fl)) with (set_eng e fl).
           now rewrite (unclamped_sameKinematics _ _ _ _ _ Hk).
    + assert (updateBoid fl boids i0 = (fl, boids)) as ->
        by (unfold updateBoid; now rewrite Hb0).
      destruct (IH fl boids Hnd) as [Hk1 Hl]. split; [exact Hk1 |].
      intros i b Hb. destruct (Hl _ _ Hb) as [Hout Hin]. split.
      * intros Hn. apply Hout. intros H. apply Hn. now right.
      * intros H. apply elem_of_cons in H as [-> | H]; [congruence | now apply Hin].
Qed.

(** The collection after a step: each boid is integrated with the
    acceleration the first phase stored for it. *)
Lemma integrate_config (fl fl' : Flocker) (dt : R) (b : Boid) :
  MaxVelocity fl' = MaxVelocity fl ->
  CollisionRadius fl' = CollisionRadius fl ->
  CollisionCenter fl' = CollisionCenter fl ->
  integrate fl' dt b = integrate fl dt b.
Proof.
  intros Hv Hr Hc.
  unfold integrate, steerAway, avoidanceDirection, insideSphere, fallbackCorrection,
    escapeDirection, cosineArg, tangentArg, projectedCenter, discriminant, paddedRadius.
  now rewrite Hv, Hr, Hc.
Qed.

Lemma configured_obstacle (fl : Flocker) :
  MaxVelocity (configured fl) = MaxVelocity fl
  /\ MaxAcceleration (configured fl) = MaxAcceleration fl
  /\ CollisionRadius (configured fl) = CollisionRadius fl
  /\ CollisionCenter (configured fl) = CollisionCenter fl
  /\ SteeringTargets (configured fl) = SteeringTargets fl
  /\ SteeringTargetType (configured fl) = SteeringTargetType fl
  /\ SteeringWeight (configured fl) = SteeringWeight fl.
Proof. unfold configured. simpl. now destruct (decide _). Qed.

Lemma update_lookup (fl : Flocker) (boids : list Boid) (dt : R) (i : nat) (b : Boid) :
  boids !! i = Some b ->
  exists e,
    snd (update fl boids dt) !! i
    = Some (integrate fl dt
              (set_acceleration
                 (clampLength (unclamped (set_eng e (prepared fl boids)) boids i b)
                    (MaxAcceleration fl)) b)).
Proof.
  intros Hb. rewrite update_boids.
  destruct (update_flocker fl boids dt) as [e0 ->].
  destruct (configured_obstacle fl) as (Hv & Ha & Hr & Hc & _ & _ & _).
  unfold updateAcceleration. fold (configured fl). fold (prepared fl boids).
  destruct (updateBoids_lookup (seq 0 (length boids)) (prepared fl boids) boids
              (NoDup_seq _ _)) as [_ Hl].
  destruct (Hl i b Hb) as [_ Hin].
  destruct Hin as [e He].
  { apply elem_of_seq. apply lookup_lt_Some in Hb. lia. }
  exists e. rewrite list_lookup_fmap, He. simpl. f_equal.
  change (MaxAcceleration (prepared fl boids)) with (MaxAcceleration (configured fl)).
  rewrite Ha. now apply integrate_config.
Qed.

(** ** An agent that perceives nobody *)

Lemma nearby_nil (fl : Flocker) (boids : list Boid) (i : nat) (b : Boid) :
  PerceptionRadius fl <> 0 ->
  (forall j t, boids !! j = Some t -> ~ perceives fl i b j t) ->
  getNearbyBoids (buildVoxelCache fl boids) boids i b = [].
Proof.
  intros Hr Hnone.
  destruct (getNearbyBoids (buildVoxelCache fl boids) boids i b) as [| nb l] eqn:E;
    [reflexivity |].
  exfalso.
  assert (nb ∈ getNearbyBoids (buildVoxelCache fl boids) boids i b) as Hin
    by (rewrite E; now left).
  apply (query_elem fl boids i b nb Hr) in Hin as (j & t & Ht & Hp & _).
  exact (Hnone j t Ht Hp).
Qed.

Lemma getNearbyBoids_set_eng (fl : Flocker) (boids : list Boid) (i : nat) (b : Boid)
  (e : Engine) :
  getNearbyBoids (set_eng e fl) boids i b = getNearbyBoids fl boids i b.
Proof. now rewrite !getNearbyBoids_block. Qed.

Lemma chooseTarget_config (fl fl' : Flocker) (b : Boid) (targets : list Vec3)
  (acc : Vec3 * R) :
  SteeringTargetType fl' = SteeringTargetType fl ->
  chooseTarget fl' b targets acc = chooseTarget fl b targets acc.
Proof.
  intros H. revert acc. induction targets as [| target rest IH]; intros [st td]; simpl.
  - reflexivity.
  - rewrite H. destruct (_ || _); apply IH.
Qed.

Lemma steeringOf_config (fl fl' : Flocker) (b : Boid) :
  SteeringTargetType fl' = SteeringTargetType fl ->
  SteeringTargets fl' = SteeringTargets fl ->
  steeringOf fl' b = steeringOf fl b.
Proof.
  intros H1 H2. unfold steeringOf. now rewrite H2, (chooseTarget_config fl fl' b _ _ H1).
Qed.

Lemma steeringOf_no_targets (fl : Flocker) (b : Boid) :
  SteeringTargets fl = [] -> steeringOf fl b = glm.zero.
Proof.
  intros H. unfold steeringOf. rewrite H. simpl.
  unfold glm.any_equal. now rewrite bool_decide_eq_true_2.
Qed.

Lemma unclamped_isolated (fl : Flocker) (boids : list Boid) (i : nat) (b : Boid) (e : Engine) :
  PerceptionRadius fl <> 0 ->
  (forall j t, boids !! j = Some t -> ~ perceives fl i b j t) ->
  unclamped (set_eng e (buildVoxelCache fl boids)) boids i b
  = (SteeringWeight fl * steeringOf fl b)%V.
Proof.
  intros Hr Hnone. unfold unclamped, forces.
  rewrite getNearbyBoids_set_eng, (nearby_nil fl boids i b Hr Hnone). simpl.
  rewrite (steeringOf_config fl (set_eng e (buildVoxelCache fl boids)) b) by reflexivity.
  unfold combine. apply vec3_eq; simpl; ring.
Qed.

Lemma clampLength_zero (m : R) : 0 <= m -> clampLength glm.zero m = glm.zero.
Proof. intros Hm. apply clampLength_small. rewrite length_zero. exact Hm. Qed.

(** The acceleration an isolated agent without targets gets in a step. *)
Lemma update_lookup_isolated (fl : Flocker) (boids : list Boid) (dt : R) (i : nat) (b : Boid) :
  boids !! i = Some b ->
  (forall j t, boids !! j = Some t -> j <> i ->
     PerceptionRadius (configured fl) < glm.length (position t - position b)) ->
  SteeringTargets fl = [] ->
  0 <= MaxAcceleration fl ->
  snd (update fl boids dt) !! i = Some (integrate fl dt (set_acceleration glm.zero b)).
Proof.
  intros Hb Hfar Hst Hmax. destruct (update_lookup fl boids dt i b Hb) as [e ->].
  unfold prepared.
  rewrite unclamped_isolated.
  - destruct (configured_obstacle fl) as (_ & _ & _ & _ & Ht & _ & _).
    rewrite steeringOf_no_targets by now rewrite Ht.
    replace (SteeringWeight (configured fl) * glm.zero)%V with glm.zero
      by (apply vec3_eq; simpl; ring).
    now rewrite clampLength_zero.
  - apply configured_radius_nonzero.
  - intros j t Ht (Hij & Hd & _).
    assert (j <> i) as Hji by congruence. specialize (Hfar j t Ht Hji). lra.
Qed.

(** ** The integrator *)

Lemma steerAway_fields (fl : Flocker) (dt : R) (b : Boid) :
  position (steerAway fl dt b) = position b
  /\ acceleration (steerAway fl dt b) = acceleration b
  /\ avoidance (steerAway fl dt b) = fst (avoidanceDirection fl b).
Proof.
  unfold steerAway. destruct (avoidanceDirection fl b) as [flag [target |]]; simpl.
  - now destruct (_ && _).
  - easy.
Qed.

Lemma steerAway_inactive (fl : Flocker) (dt : R) (b : Boid) :
  fst (avoidanceDirection fl b) = false -> velocity (steerAway fl dt b) = velocity b.
Proof.
  unfold steerAway. destruct (avoidanceDirection fl b) as [flag [target |]]; simpl.
  - intros ->. now rewrite andb_false_r.
  - easy.
Qed.

Lemma integrate_fields (fl : Flocker) (dt : R) (b : Boid) :
  let v2 := clampLength (velocity (steerAway fl dt b) + dt * acceleration b)%V
              (MaxVelocity fl) in
  let p := (position b + dt * v2)%V in
  position (integrate fl dt b) = p
  /\ velocity (integrate fl dt b)
     = (if insideSphere fl p then (v2 + fallbackCorrection fl p)%V else v2)
  /\ acceleration (integrate fl dt b) = acceleration b
  /\ avoidance (integrate fl dt b) = fst (avoidanceDirection fl b).
Proof.
  destruct (steerAway_fields fl dt b) as (Hp & Ha & Hf).
  unfold integrate. destruct (steerAway fl dt b) as [p0 v0 a0 n0 s0 f0].
  simpl in *. subst p0 a0 f0.
  destruct (insideSphere fl _); simpl; easy.
Qed.

Lemma update_lookup_integrate (fl : Flocker) (boids : list Boid) (dt : R) (i : nat)
  (b' : Boid) :
  snd (update fl boids dt) !! i = Some b' ->
  exists b1, b' = integrate fl dt b1.
Proof.
  intros H. rewrite update_boids in H. apply list_lookup_fmap_Some in H as (b1 & -> & Hb1).
  exists b1. destruct (update_flocker fl boids dt) as [e ->].
  destruct (configured_obstacle fl) as (Hv & _ & Hr & Hc & _ & _ & _).
  now apply integrate_config.
Qed.

Lemma avoidance_inactive_receding (fl : Flocker) (b : Boid) :
  0 < glm.dot (2 * velocity b) (position b - CollisionCenter fl) ->
  avoidanceDirection fl b = (false, Some (velocity b)).
Proof.
  intros H. unfold avoidanceDirection.
  pose proof (sqrt_pos (discriminant fl b)) as Hs.
  rewrite (bool_decide_eq_false_2 (_ + sqrt _ <= 0)) by lra.
  now rewrite andb_false_r.
Qed.

Lemma integrate_inactive (fl : Flocker) (dt : R) (b : Boid) :
  fst (avoidanceDirection fl b) = false ->
  let v2 := clampLength (velocity b + dt * acceleration b)%V (MaxVelocity fl) in
  let p := (position b + dt * v2)%V in
  position (integrate fl dt b) = p
  /\ velocity (integrate fl dt b)
     = (if insideSphere fl p then (v2 + fallbackCorrection fl p)%V else v2)
  /\ acceleration (integrate fl dt b) = acceleration b
  /\ avoidance (integrate fl dt b) = false.
Proof.
  intros Hf. pose proof (integrate_fields fl dt b) as H.
  rewrite (steerAway_inactive fl dt b Hf), Hf in H. exact H.
Qed.

(** ** The velocity bound *)

(** C2, as the code has it.  After a step the speed of an agent whose new
    position is not strictly inside the collision sphere is at most
    [MaxVelocity + eps], for a maximum velocity that is not negative and
    every [eps >= 0]. *)
Theorem velocity_bound_outside_sphere
  (fl : Flocker) (boids : list Boid) (dt : R) (i : nat) (b' : Boid) (eps : R) :
  0 <= MaxVelocity fl ->
  0 <= eps ->
  snd (update fl boids dt) !! i = Some b' ->
  insideSphere fl (position b') = false ->
  glm.length (velocity b') <= MaxVelocity fl + eps.
Proof.
  intros Hmax Heps Hb' Hout.
  destruct (update_lookup_integrate fl boids dt i b' Hb') as [b1 ->].
  destruct (integrate_fields fl dt b1) as (Hp & Hv & _).
  rewrite Hp in Hout. rewrite Hv, Hout.
  pose proof (clampLength_bound
                (velocity (steerAway fl dt b1) + dt * acceleration b1)%V
                (MaxVelocity fl) Hmax).
  lra.
Qed.

(** ** The isolated agent *)

(** C8, as the code has it.  An agent with no other agent within the
    perception radius, no steering target, avoidance inactive, a speed of at
    most [MaxVelocity] and a position after the move that is not inside the
    collision sphere gets zero acceleration; after one step with [dt = 1]
    its velocity is the one it had and its position has advanced by it. *)
Theorem isolated_agent_step (fl : Flocker) (boids : list Boid) (i : nat) (b : Boid) :
  boids !! i = Some b ->
  (forall j t, boids !! j = Some t -> j <> i ->
     PerceptionRadius (configured fl) < glm.length (position t - position b)) ->
  SteeringTargets fl = [] ->
  fst (avoidanceDirection fl b) = false ->
  insideSphere fl (position b + velocity b) = false ->
  glm.length (velocity b) <= MaxVelocity fl ->
  0 <= MaxAcceleration fl ->
  exists b',
    snd (update fl boids 1) !! i = Some b'
    /\ acceleration b' = glm.zero
    /\ velocity b' = velocity b
    /\ position b' = (position b + velocity b)%V.
Proof.
  intros Hb Hfar Hst Hav Hout Hv Hacc.
  eexists. split; [exact (update_lookup_isolated fl boids 1 i b Hb Hfar Hst Hacc) |].
  destruct (integrate_inactive fl 1 (set_acceleration glm.zero b) Hav) as (Hp & Hvel & Ha & _).
  simpl in Hp, Hvel, Ha.
  assert ((velocity b + 1 * glm.zero)%V = velocity b) as E1
    by (apply vec3_eq; simpl; ring).
  rewrite E1 in Hp, Hvel. rewrite (clampLength_small _ _ Hv) in Hp, Hvel.
  assert ((position b + 1 * velocity b)%V = (position b + velocity b)%V) as E2
    by (apply vec3_eq; simpl; ring).
  rewrite E2 in Hp, Hvel. rewrite Hout in Hvel. easy.
Qed.

(** ** Scenarios *)

Ltac scenario :=
  unfold driverFlocker, farFlocker, seekingFlocker, defaultFlocker, innerBoid, fastBoid,
    slowBoid, remoteBoid, originBoid, divingBoid, approachingBoid, newBoid, paddedRadius, insideSphere, fallbackCorrection,
    glm.length2, glm.dot, glm.zero in *;
  simpl in *.

Ltac vec_lra := apply vec3_eq; scenario; lra.

Lemma single_agent_isolated (fl : Flocker) (b : Boid) (j : nat) (t : Boid) :
  [b] !! j = Some t -> ~ perceives fl 0 b j t.
Proof.
  intros Ht (Hij & _). destruct j as [| j]; [now apply Hij |]. discriminate.
Qed.

Lemma single_agent_far (r : R) (b : Boid) (j : nat) (t : Boid) :
  [b] !! j = Some t -> j <> 0%nat -> r < glm.length (position t - position b).
Proof. intros Ht Hj. destruct j as [| j]; [easy | discriminate]. Qed.

Lemma innerBoid_step :
  snd (update driverFlocker [innerBoid] 1) !! 0%nat
  = Some (integrate driverFlocker 1 (set_acceleration glm.zero innerBoid))
  /\ position (integrate driverFlocker 1 (set_acceleration glm.zero innerBoid))
     = vec3 (-4.5) (-3) 0
  /\ velocity (integrate driverFlocker 1 (set_acceleration glm.zero innerBoid))
     = (vec3 (-1) 0 0 + fallbackCorrection driverFlocker (vec3 (-4.5) (-3) 0))%V.
Proof.
  split.
  { apply update_lookup_isolated; [reflexivity | | reflexivity | scenario; lra].
    intros j t. apply single_agent_far. }
  assert (fst (avoidanceDirection driverFlocker (set_acceleration glm.zero innerBoid)) = false)
    as Hav by (rewrite avoidance_inactive_receding; [reflexivity | scenario; lra]).
  destruct (integrate_inactive driverFlocker 1 _ Hav) as (Hp & Hv & _).
  change (velocity (set_acceleration glm.zero innerBoid)) with (vec3 (-1) 0 0) in Hp, Hv.
  change (acceleration (set_acceleration glm.zero innerBoid)) with glm.zero in Hp, Hv.
  change (position (set_acceleration glm.zero innerBoid)) with (vec3 (-3.5) (-3) 0) in Hp, Hv.
  change (MaxVelocity driverFlocker) with 1 in Hp, Hv.
  assert (clampLength (vec3 (-1) 0 0 + 1 * glm.zero)%V 1 = vec3 (-1) 0 0) as Hc.
  { rewrite clampLength_small; [vec_lra |].
    apply sqrt_le_bound; [lra |]. scenario. lra. }
  rewrite Hc in Hp, Hv.
  assert ((vec3 (-3.5) (-3) 0 + 1 * vec3 (-1) 0 0)%V = vec3 (-4.5) (-3) 0) as Hq by vec_lra.
  rewrite Hq in Hp, Hv. split; [exact Hp |].
  rewrite Hv. unfold insideSphere.
  rewrite (bool_decide_eq_true_2 _); [reflexivity |]. scenario. lra.
Qed.

(** C3, the code at an agent inside the sphere.  For the sphere of radius 2
    around [(-3, -3, 0)] and the agent at [(-3.5, -3, 0)] with velocity
    [(-1, 0, 0)], the position after the move, [(-4.5, -3, 0)], is strictly
    inside the sphere, the correction added to the velocity is
    [(2.55, 2.7, 0)], which is no positive multiple of the vector
    [(-1.5, 0, 0)] from the centre to the agent and has a negative dot product
    with it: it points toward the centre, not away from it. *)
Theorem fallback_correction_points_inward :
  exists b',
    snd (update driverFlocker [innerBoid] 1) !! 0%nat = Some b'
    /\ position b' = vec3 (-4.5) (-3) 0
    /\ insideSphere driverFlocker (position b') = true
    /\ velocity b' = (vec3 (-1) 0 0 + fallbackCorrection driverFlocker (position b'))%V
    /\ fallbackCorrection driverFlocker (position b') = vec3 2.55 2.7 0
    /\ (position b' - CollisionCenter driverFlocker)%V = vec3 (-1.5) 0 0
    /\ glm.dot (fallbackCorrection driverFlocker (position b'))
         (position b' - CollisionCenter driverFlocker) < 0
    /\ ~ exists k : R,
           0 < k
           /\ fallbackCorrection driverFlocker (position b')
              = (k * (position b' - CollisionCenter driverFlocker))%V.
Proof.
  destruct innerBoid_step as (Hl & Hp & Hv).
  eexists. split; [exact Hl |]. rewrite Hp. split; [reflexivity |].
  split. { apply bool_decide_eq_true_2. scenario. lra. }
  split; [exact Hv |]. split; [vec_lra |]. split; [vec_lra |].
  split. { scenario. lra. }
  intros (k & Hk & Heq). apply (f_equal vy) in Heq. scenario. lra.
Qed.

(** C2 fails as it is stated: the agent of the scenario above ends its step
    inside the sphere with velocity [(1.55, 2.7, 0)], longer than
    [MaxVelocity + 1] for [MaxVelocity = 1]. *)
Lemma velocity_bound_fails_inside_sphere :
  exists b',
    snd (update driverFlocker [innerBoid] 1) !! 0%nat = Some b'
    /\ velocity b' = vec3 1.55 2.7 0
    /\ MaxVelocity driverFlocker + 1 < glm.length (velocity b').
Proof.
  destruct innerBoid_step as (Hl & Hp & Hv).
  eexists. split; [exact Hl |].
  assert (velocity (integrate driverFlocker 1 (set_acceleration glm.zero innerBoid))
          = vec3 1.55 2.7 0) as -> by (rewrite Hv; vec_lra).
  split; [reflexivity |].
  apply sqrt_gt_bound; [scenario; lra |]. scenario. lra.
Qed.

Lemma fastBoid_step :
  let b' := integrate farFlocker 1 (set_acceleration glm.zero fastBoid) in
  snd (update farFlocker [fastBoid] 1) !! 0%nat = Some b'
  /\ position b' = vec3 105 0 0
  /\ velocity b' = vec3 5 0 0
  /\ acceleration b' = glm.zero
  /\ avoidance b' = false.
Proof.
  intros b'. split.
  { apply update_lookup_isolated; [reflexivity | | reflexivity | scenario; lra].
    intros j t. apply single_agent_far. }
  assert (fst (avoidanceDirection farFlocker (set_acceleration glm.zero fastBoid)) = false)
    as Hav by (rewrite avoidance_inactive_receding; [reflexivity | scenario; lra]).
  destruct (integrate_inactive farFlocker 1 _ Hav) as (Hp & Hv & Ha & Hf). fold b' in Hp, Hv, Ha, Hf.
  change (velocity (set_acceleration glm.zero fastBoid)) with (vec3 10 0 0) in Hp, Hv.
  change (acceleration (set_acceleration glm.zero fastBoid)) with glm.zero in Hp, Hv, Ha.
  change (position (set_acceleration glm.zero fastBoid)) with (vec3 100 0 0) in Hp, Hv.
  change (MaxVelocity farFlocker) with 5 in Hp, Hv.
  assert (clampLength (vec3 10 0 0 + 1 * glm.zero)%V 5 = vec3 5 0 0) as Hc.
  { replace (vec3 10 0 0 + 1 * glm.zero)%V with (vec3 10 0 0) by vec_lra.
    assert (sqrt (glm.dot (vec3 10 0 0) (vec3 10 0 0)) = 10) as Hs
      by (apply sqrt_of_square; [lra | scenario; lra]).
    unfold clampLength, glm.normalize, glm.length. rewrite Hs.
    rewrite decide_True by lra. apply vec3_eq; simpl; lra. }
  rewrite Hc in Hp, Hv.
  assert ((vec3 100 0 0 + 1 * vec3 5 0 0)%V = vec3 105 0 0) as Hq by vec_lra.
  rewrite Hq in Hp, Hv. split; [exact Hp |]. split; [| easy].
  rewrite Hv. unfold insideSphere.
  rewrite (bool_decide_eq_false_2 _); [reflexivity |]. scenario. lra.
Qed.

Lemma velocity_bound_outside_sphere_witness :
  let b' := integrate farFlocker 1 (set_acceleration glm.zero fastBoid) in
  snd (update farFlocker [fastBoid] 1) !! 0%nat = Some b'
  /\ insideSphere farFlocker (position b') = false
  /\ glm.length (velocity b') <= MaxVelocity farFlocker + 0.
Proof.
  intros b'. destruct fastBoid_step as (Hl & Hp & _).
  assert (insideSphere farFlocker (position b') = false) as Hout.
  { unfold b'. rewrite Hp. apply bool_decide_eq_false_2. scenario. lra. }
  split; [exact Hl |]. split; [exact Hout |].
  apply (velocity_bound_outside_sphere farFlocker [fastBoid] 1 0 b' 0);
    [scenario; lra | lra | exact Hl | exact Hout].
Defined.

(** C8 fails as it is stated: a single agent without targets, outside the
    sphere and moving away from it (avoidance inactive), but faster than
    [MaxVelocity], leaves the step with the clamped velocity [(5, 0, 0)]
    instead of [(10, 0, 0)], and has advanced by the clamped velocity. *)
Lemma isolated_fast_agent_is_slowed :
  SteeringTargets farFlocker = []
  /\ fst (avoidanceDirection farFlocker fastBoid) = false
  /\ insideSphere farFlocker (position fastBoid) = false
  /\ exists b',
       snd (update farFlocker [fastBoid] 1) !! 0%nat = Some b'
       /\ insideSphere farFlocker (position b') = false
       /\ acceleration b' = glm.zero
       /\ velocity b' = vec3 5 0 0
       /\ velocity b' <> velocity fastBoid
       /\ position b' = vec3 105 0 0
       /\ position b' <> (position fastBoid + velocity fastBoid)%V.
Proof.
  split; [reflexivity |].
  split. { rewrite avoidance_inactive_receding; [reflexivity | scenario; lra]. }
  split. { apply bool_decide_eq_false_2. scenario. lra. }
  destruct fastBoid_step as (Hl & Hp & Hv & Ha & _).
  eexists. split; [exact Hl |]. rewrite Hp, Hv.
  split. { apply bool_decide_eq_false_2. scenario. lra. }
  split; [exact Ha |]. split; [reflexivity |].
  split. { intros H. apply (f_equal vx) in H. scenario. lra. }
  split; [reflexivity |].
  intros H. apply (f_equal vx) in H. scenario. lra.
Qed.

Lemma configured_radius (fl : Flocker) :
  PerceptionRadius fl <> 0 -> PerceptionRadius (configured fl) = PerceptionRadius fl.
Proof.
  intros H. change (PerceptionRadius (configured fl)) with (PerceptionRadius (prepared fl [])).
  rewrite prepared_radius. now rewrite decide_False.
Qed.

Lemma isolated_agent_step_witness :
  exists b',
    snd (update farFlocker [slowBoid; remoteBoid] 1) !! 0%nat = Some b'
    /\ acceleration b' = glm.zero
    /\ velocity b' = velocity slowBoid
    /\ position b' = (position slowBoid + velocity slowBoid)%V.
Proof.
  apply (isolated_agent_step farFlocker [slowBoid; remoteBoid] 0 slowBoid).
  - reflexivity.
  - intros j t Ht Hj. rewrite configured_radius by (scenario; lra).
    destruct j as [| [| j]]; [easy | | discriminate].
    injection Ht as <-. apply sqrt_gt_bound; scenario; lra.
  - reflexivity.
  - rewrite avoidance_inactive_receding; [reflexivity | scenario; lra].
  - apply bool_decide_eq_false_2. scenario. lra.
  - apply sqrt_le_bound; scenario; lra.
  - scenario. lra.
Defined.

(** ** The target-seeking scenario *)

Lemma steeringOf_cases (fl : Flocker) (b : Boid) :
  let chosen := chooseTarget fl b (SteeringTargets fl) (position b, -1) in
  (glm.any_equal (fst chosen) (position b) = true -> steeringOf fl b = glm.zero)
  /\ (glm.any_equal (fst chosen) (position b) = false ->
      steeringOf fl b = (snd chosen * glm.normalize (fst chosen - position b))%V).
Proof.
  unfold steeringOf. destruct (chooseTarget _ _ _ _) as [tgt d]. simpl.
  split; intros ->; reflexivity.
Qed.

Lemma seeking_chosen_target :
  chooseTarget seekingFlocker originBoid (SteeringTargets seekingFlocker)
    (position originBoid, -1)
  = (vec3 10 0 0, 10).
Proof.
  unfold seekingFlocker. simpl.
  rewrite (bool_decide_eq_true_2 (-1 < 0)) by lra. simpl. f_equal.
  apply sqrt_of_square; [lra |]. scenario. lra.
Qed.

(** C1, the code at the scenario of the specification.  The agent is at
    the origin, the only target is [(10, 0, 0)], the curve is LINEAR, the
    steering weight is 1 and the other weights are 0.  The target is chosen
    with curve value 10 and the agent is not at the target, but the y and z
    components of the two coincide: the steering term is zero and the
    acceleration stored is zero, where the unit vector [(1, 0, 0)] scaled by
    10 and clamped to [MaxAcceleration = 5] is [(5, 0, 0)]. *)
Theorem target_seeking_stores_zero (dt : R) :
  chooseTarget seekingFlocker originBoid (SteeringTargets seekingFlocker)
    (position originBoid, -1)
  = (vec3 10 0 0, 10)
  /\ position originBoid <> vec3 10 0 0
  /\ glm.any_equal (vec3 10 0 0) (position originBoid) = true
  /\ steeringOf seekingFlocker originBoid = glm.zero
  /\ (10 * glm.normalize (vec3 10 0 0 - position originBoid))%V = vec3 10 0 0
  /\ clampLength (vec3 10 0 0) (MaxAcceleration seekingFlocker) = vec3 5 0 0
  /\ exists b',
       snd (update seekingFlocker [originBoid] dt) !! 0%nat = Some b'
       /\ acceleration b' = glm.zero
       /\ acceleration b' <> vec3 5 0 0.
Proof.
  assert (glm.any_equal (vec3 10 0 0) (position originBoid) = true) as Hany.
  { unfold glm.any_equal. simpl. rewrite (bool_decide_eq_true_2 (0 = 0)) by reflexivity.
    now rewrite orb_true_r. }
  assert (steeringOf seekingFlocker originBoid = glm.zero) as Hst.
  { apply steeringOf_cases. now rewrite seeking_chosen_target. }
  assert (sqrt (glm.dot (vec3 10 0 0) (vec3 10 0 0)) = 10) as Hs
    by (apply sqrt_of_square; [lra | scenario; lra]).
  split; [apply seeking_chosen_target |].
  split. { intros H. apply (f_equal vx) in H. scenario. lra. }
  split; [exact Hany |]. split; [exact Hst |].
  split.
  { replace (vec3 10 0 0 - position originBoid)%V with (vec3 10 0 0) by vec_lra.
    unfold glm.normalize. rewrite Hs. apply vec3_eq; simpl; lra. }
  split.
  { unfold clampLength, glm.normalize, glm.length. rewrite Hs.
    rewrite decide_True by (scenario; lra). apply vec3_eq; scenario; lra. }
  destruct (update_lookup seekingFlocker [originBoid] dt 0 originBoid eq_refl) as [e He].
  eexists. split; [exact He |].
  destruct (integrate_fields seekingFlocker dt
              (set_acceleration
                 (clampLength
                    (unclamped (set_eng e (prepared seekingFlocker [originBoid]))
                       [originBoid] 0 originBoid)
                    (MaxAcceleration seekingFlocker)) originBoid)) as (_ & _ & -> & _).
  change (acceleration (set_acceleration ?a _)) with a.
  unfold prepared. rewrite unclamped_isolated;
    [| apply configured_radius_nonzero | intros j t; apply single_agent_isolated].
  destruct (configured_obstacle seekingFlocker) as (_ & _ & _ & _ & Ht & Hty & _).
  rewrite (steeringOf_config seekingFlocker (configured seekingFlocker) originBoid Hty Ht).
  rewrite Hst.
  replace (SteeringWeight (configured seekingFlocker) * glm.zero)%V with glm.zero
    by (apply vec3_eq; simpl; ring).
  rewrite clampLength_zero by (scenario; lra).
  split; [reflexivity |].
  intros H. apply (f_equal vx) in H. scenario. lra.
Qed.

(** ** The square roots of the avoidance maneuver *)




Lemma dot_scale_l (k : R) (a b : Vec3) : glm.dot (k * a) b = k * glm.dot a b.
Proof. unfold glm.dot. simpl. ring. Qed.



Lemma velocity_nonzero_length2 (v : Vec3) : v <> glm.zero -> 0 < glm.dot v v.
Proof.
  intros Hv. destruct (Rle_lt_dec (glm.dot v v) 0) as [Hle | Hlt]; [| exact Hlt].
  exfalso. apply Hv. pose proof (dot_self_nonneg v) as H0.
  unfold glm.dot in *. apply vec3_eq; simpl; nra.
Qed.

(** In the active branch the agent is on or outside the padded sphere. *)
Lemma active_outside_sphere (fl : Flocker) (b : Boid) :
  velocity b <> glm.zero ->
  0 <= discriminant fl b ->
  glm.dot (2 * velocity b) (position b - CollisionCenter fl)
  + sqrt (discriminant fl b) <= 0 ->
  paddedRadius fl * paddedRadius fl
  <= glm.dot (position b - CollisionCenter fl) (position b - CollisionCenter fl).
Proof.
  intros Hv Hd Hsee. pose proof (velocity_nonzero_length2 _ Hv) as Ha.
  pose proof (sqrt_pos (discriminant fl b)) as Hs.
  pose proof (sqrt_sqrt _ Hd) as Hss.
  unfold discriminant in *. unfold glm.length2 in *.
  set (bb := glm.dot (2 * velocity b) (position b - CollisionCenter fl)) in *.
  set (a := glm.dot (velocity b) (velocity b)) in *.
  set (dd := glm.dot (position b - CollisionCenter fl) (position b - CollisionCenter fl)) in *.
  set (r2 := paddedRadius fl * paddedRadius fl) in *.
  set (sd := sqrt (bb * bb - 4 * a * (dd - r2))) in *.
  assert (sd * sd <= bb * bb) by nra.
  assert (0 <= a * (dd - r2)) by nra.
  destruct (Rle_lt_dec r2 dd) as [Hle | Hlt]; [exact Hle |]. exfalso. nra.
Qed.


Lemma avoidance_active_when (fl : Flocker) (b : Boid) :
  0 <= discriminant fl b ->
  glm.dot (2 * velocity b) (position b - CollisionCenter fl)
  + sqrt (discriminant fl b) <= 0 ->
  glm.length2 (velocity b) <> 0 ->
  - (glm.dot (2 * velocity b) (position b - CollisionCenter fl)
     + sqrt (discriminant fl b)) * glm.length (velocity b)
    / (2 * glm.length2 (velocity b)) < paddedRadius fl ->
  avoidanceDirection fl b = (true, escapeDirection fl b).
Proof.
  intros Hd Hsee Ha Hreach. unfold avoidanceDirection.
  rewrite (bool_decide_eq_true_2 (discriminant fl b >= 0)) by lra.
  rewrite (bool_decide_eq_true_2 _ Hsee). simpl.
  unfold fdiv. rewrite decide_False by lra.
  rewrite (bool_decide_eq_false_2 (_ >= paddedRadius fl)) by lra. reflexivity.
Qed.

Lemma fsqrt_Some (x : R) : 0 <= x -> fsqrt x = Some (sqrt x).
Proof. intros H. unfold fsqrt. now rewrite decide_True. Qed.

Lemma fsqrt_None (x : R) : x < 0 -> fsqrt x = None.
Proof. intros H. unfold fsqrt. rewrite decide_False; [reflexivity | lra]. Qed.

Lemma fdiv_Some (x y : R) : y <> 0 -> fdiv x y = Some (x / y).
Proof. intros H. unfold fdiv. now rewrite decide_False. Qed.



Lemma avoidance_active_at (fl : Flocker) (b : Boid) (bb sd speed : R) :
  glm.dot (2 * velocity b) (position b - CollisionCenter fl) = bb ->
  0 <= sd -> discriminant fl b = sd * sd ->
  0 <= speed -> glm.length2 (velocity b) = speed * speed ->
  bb + sd <= 0 -> speed <> 0 ->
  - (bb + sd) * speed / (2 * (speed * speed)) < paddedRadius fl ->
  avoidanceDirection fl b = (true, escapeDirection fl b).
Proof.
  intros Hbb Hsd Hd Hsp Ha Hsee Hne Hreach.
  assert (sqrt (discriminant fl b) = sd) as Hs by (now apply sqrt_of_square).
  assert (glm.length (velocity b) = speed) as Hl
    by (unfold glm.length; now apply sqrt_of_square).
  apply avoidance_active_when; rewrite ?Hbb, ?Hs, ?Hl, ?Ha; try assumption.
  - rewrite Hd. nra.
  - nra.
Qed.


(** The same happens in the plane of motion to an agent at rest inside the
    padded sphere: the range check compares 0/0, the active branch is
    entered and [1 - sin_theta^2 = 1 - 3^2 = -8]. *)
Lemma avoidance_at_rest_inside :
  let b := newBoid (vec3 0.5 0 0) glm.zero in
  fst (avoidanceDirection farFlocker b) = true
  /\ cosineArg farFlocker b = Some (-8)
  /\ snd (avoidanceDirection farFlocker b) = None.
Proof.
  intros b.
  assert (discriminant farFlocker b = 0) as Hd by (unfold discriminant; scenario; lra).
  assert (avoidanceDirection farFlocker b = (true, escapeDirection farFlocker b)) as ->.
  { unfold avoidanceDirection. rewrite Hd, sqrt_0.
    rewrite (bool_decide_eq_true_2 (0 >= 0)) by lra.
    rewrite (bool_decide_eq_true_2 (_ + 0 <= 0)) by (scenario; lra). simpl.
    unfold fdiv. rewrite decide_True by (scenario; lra). reflexivity. }
  assert (tangentArg farFlocker b = 1.5 * 1.5) as Ht by (unfold tangentArg; scenario; lra).
  assert (projectedCenter farFlocker b - position b = vec3 (-0.5) 0 0)%V as Hc
    by (unfold projectedCenter; vec_lra).
  assert (glm.length (vec3 (-0.5) 0 0) = 0.5) as HL
    by (apply sqrt_of_square; [lra | scenario; lra]).
  assert (fsqrt (1.5 * 1.5) = Some 1.5) as Hs
    by (rewrite fsqrt_Some by lra; f_equal; apply sqrt_square; lra).
  assert (cosineArg farFlocker b = Some (-8)) as Hcos.
  { unfold cosineArg. rewrite Ht, Hs, Hc, HL. simpl.
    rewrite fdiv_Some by lra. simpl. f_equal. lra. }
  split; [reflexivity |]. split; [exact Hcos |].
  simpl. unfold escapeDirection. rewrite Ht, Hs, Hc, HL. simpl.
  rewrite fdiv_Some by lra. simpl. rewrite fsqrt_None by lra. reflexivity.
Qed.


(** * Further properties of the engine *)

(** ** Distance-response curves *)

(** X1. Every curve maps the distance 0 to 0: the inverse kinds never
    divide by zero. *)
Theorem transformDistance_zero (type : DistanceType) : transformDistance 0 type = 0.
Proof.
  destruct type; simpl; try reflexivity.
  - now rewrite decide_True.
  - ring.
  - rewrite decide_True; [reflexivity | ring].
Qed.

Lemma transformDistance_nonneg (d : R) (type : DistanceType) :
  0 <= d -> 0 <= transformDistance d type.
Proof.
  intros Hd. destruct type; simpl.
  - exact Hd.
  - destruct (decide (d = 0)); [lra |].
    apply Rlt_le, Rdiv_lt_0_compat; lra.
  - nra.
  - destruct (decide (d * (d * 1) = 0)); [lra |].
    apply Rlt_le, Rdiv_lt_0_compat; [lra | nra].
Qed.



(** ** clampLength *)



(** ** Random sources *)

Lemma getRandomUniform_length (e : Engine) :
  0 <= e 1%nat <= 1 -> glm.length (fst (getRandomUniform e)) = 1.
Proof.
  intros [H0 H1]. unfold getRandomUniform, uniform_real, draw. simpl.
  replace (0 + (1 - 0) * e 1%nat) with (e 1%nat) by ring.
  set (u := e 1%nat) in *. set (theta := 0 + (TWO_PI - 0) * e 0%nat).
  assert (sqrt u * sqrt u = u) as Hu by (now apply sqrt_sqrt).
  rewrite Hu.
  assert (sqrt (1 - u) * sqrt (1 - u) = 1 - u) as Hz by (apply sqrt_sqrt; lra).
  pose proof (sin2_cos2 theta) as Hsc. unfold Rsqr in Hsc.
  apply sqrt_of_square; [lra |]. unfold glm.dot. simpl.
  destruct (decide (0 + (1 - 0) * e 2%nat > 0.5)); nra.
Qed.

(** X4. [getRandomUniform] returns a vector of length 1 whenever the sample
    it takes the square root of lies in [0, 1]. *)
Theorem getRandomUniform_unit (e : Engine) :
  0 <= e 1%nat <= 1 -> glm.length (fst (getRandomUniform e)) = 1.
Proof. apply getRandomUniform_length. Qed.

Lemma getRandomUniform_unit_witness :
  glm.length (fst (getRandomUniform (fun _ => 0.25))) = 1.
Proof. apply (getRandomUniform_unit (fun _ => 0.25)). simpl. lra. Defined.

Lemma getRandomUniform_consumes_three_steps (e : Engine) :
  forall n, snd (getRandomUniform e) n = e (S (S (S n))).
Proof. reflexivity. Qed.

(** X5. [random_double(min, max)] returns a real in [min, max) for
    [min < max] and a canonical sample in [0, 1). *)
Theorem random_double_range_bounds (min max : R) (generator : Engine) :
  min < max -> 0 <= generator 0%nat < 1 ->
  min <= fst (random_double_range min max generator) < max.
Proof.
  intros Hmm [H0 H1]. unfold random_double_range, random_double, uniform_real, draw.
  simpl. nra.
Qed.

Lemma random_double_range_bounds_witness :
  -2 <= fst (random_double_range (-2) 2 (fun _ => 0.25)) < 2.
Proof. apply (random_double_range_bounds (-2) 2 (fun _ => 0.25)); simpl; lra. Defined.

(** ** The spatial index *)

Lemma fillVoxelCache_set_voxelCache (m0 : gmap Voxel (list nat)) (fl : Flocker)
  (bs : list Boid) (i : nat) (m : gmap Voxel (list nat)) :
  fillVoxelCache (set_voxelCache m0 fl) i bs m = fillVoxelCache fl i bs m.
Proof.
  revert i m. induction bs as [| b bs IH]; intros i m; simpl; [reflexivity |].
  now rewrite IH.
Qed.

Lemma fillVoxelCache_nonempty (fl : Flocker) (bs : list Boid) (i : nat)
  (m : gmap Voxel (list nat)) :
  (forall k l, m !! k = Some l -> l <> []) ->
  forall k l, fillVoxelCache fl i bs m !! k = Some l -> l <> [].
Proof.
  revert i m. induction bs as [| b bs IH]; intros i m Hm; simpl; [exact Hm |].
  apply IH. intros k l. unfold push_back_at.
  destruct (decide (getVoxelForBoid fl b = k)) as [-> | Hne].
  - rewrite lookup_insert_eq. intros H. injection H as <-.
    intros Hnil. now apply app_eq_nil in Hnil as [_ Hnil].
  - rewrite lookup_insert_ne by exact Hne. apply Hm.
Qed.

(** X6. After [buildVoxelCache] the bucket of a voxel holds exactly the
    indices of the boids whose position falls in that voxel, each once; no
    stored bucket is empty; and nothing of the previous cache survives. *)
Theorem voxelCache_invariant (fl : Flocker) (boids : list Boid) (k : Voxel) :
  (forall j, j ∈ default [] (voxelCache (buildVoxelCache fl boids) !! k)
             <-> exists t, boids !! j = Some t /\ getVoxelForBoid fl t = k)
  /\ NoDup (default [] (voxelCache (buildVoxelCache fl boids) !! k))
  /\ voxelCache (buildVoxelCache fl boids) !! k <> Some []
  /\ forall m, voxelCache (buildVoxelCache (set_voxelCache m fl) boids)
               = voxelCache (buildVoxelCache fl boids).
Proof.
  rewrite buildVoxelCache_lookup. split; [| split; [| split]].
  - intros j. apply cellMembers_0_elem.
  - apply cellMembers_NoDup.
  - intros H. unfold buildVoxelCache in H. simpl in H.
    eapply fillVoxelCache_nonempty; [| exact H | reflexivity].
    intros k' l Hl. now rewrite lookup_empty in Hl.
  - intros m. unfold buildVoxelCache. simpl. apply fillVoxelCache_set_voxelCache.
Qed.

Lemma truncate_zero_iff (x : R) : truncate x = 0%Z <-> -1 < x < 1.
Proof.
  destruct (truncate_bounds x) as [Hp Hn].
  destruct (Rle_lt_dec 0 x) as [Hx | Hx].
  - destruct (Hp Hx) as [[Hlo Hhi] Hz]. split.
    + intros E. rewrite E in Hlo, Hhi. lra.
    + intros [_ H1]. assert (IZR (truncate x) < 1) as Hlt by lra.
      apply lt_IZR in Hlt. lia.
  - destruct (Hn Hx) as [[Hlo Hhi] Hz]. split.
    + intros E. rewrite E in Hlo, Hhi. lra.
    + intros [H1 _]. assert (-1 < IZR (truncate x)) as Hlt by lra.
      apply lt_IZR in Hlt. lia.
Qed.

Lemma quotient_unit_iff (x r : R) : 0 < r -> (-1 < x / r < 1 <-> - r < x < r).
Proof.
  intros Hr. assert (x = x / r * r) as Hx by (field; lra). split.
  - intros [H1 H2]. rewrite Hx. nra.
  - intros [H1 H2]. split.
    + apply Rmult_lt_reg_r with r; [lra |]. rewrite <- Hx. lra.
    + apply Rmult_lt_reg_r with r; [lra |]. rewrite <- Hx. lra.
Qed.

(** X7. Truncation toward zero makes the voxel at the origin twice as wide
    as the others: for a radius other than 0 a boid is in the voxel
    [(0, 0, 0)] exactly when every coordinate of its position is strictly
    between [-|PerceptionRadius|] and [|PerceptionRadius|]. *)
Theorem central_voxel (fl : Flocker) (b : Boid) :
  PerceptionRadius fl <> 0 ->
  getVoxelForBoid fl b = (0, 0, 0)%Z
  <-> Rabs (vx (position b)) < Rabs (PerceptionRadius fl)
      /\ Rabs (vy (position b)) < Rabs (PerceptionRadius fl)
      /\ Rabs (vz (position b)) < Rabs (PerceptionRadius fl).
Proof.
  intros Hr. pose proof (Rabs_pos_lt _ Hr) as Hpos.
  unfold getVoxelForBoid. set (r := Rabs (PerceptionRadius fl)) in *.
  assert (forall x, truncate (x / r) = 0%Z <-> Rabs x < r) as Hc.
  { intros x. rewrite truncate_zero_iff, (quotient_unit_iff x r Hpos).
    split; [intros [? ?]; apply Rabs_def1; lra | intros H; apply Rabs_def2 in H; lra]. }
  rewrite <- !Hc. split.
  - intros H. injection H as -> -> ->. easy.
  - intros (-> & -> & ->). reflexivity.
Qed.

Lemma central_voxel_witness :
  getVoxelForBoid farFlocker (newBoid (vec3 (-0.5) 29 0) glm.zero) = (0, 0, 0)%Z
  <-> Rabs (-0.5) < Rabs 30 /\ Rabs 29 < Rabs 30 /\ Rabs 0 < Rabs 30.
Proof.
  apply (central_voxel farFlocker (newBoid (vec3 (-0.5) 29 0) glm.zero)). simpl. lra.
Defined.

Lemma truncate_opp (x : R) : truncate (- x) = (- truncate x)%Z.
Proof.
  unfold truncate. destruct (decide (0 <= x)) as [Hx | Hx].
  - destruct (decide (0 <= - x)) as [Hn | Hn].
    + assert (x = 0) as -> by lra. rewrite Ropp_0.
      replace (Int_part 0) with 0%Z; [reflexivity |].
      apply (Int_part_spec 0 0). simpl. lra.
    + now rewrite Ropp_involutive.
  - rewrite decide_True by lra. lia.
Qed.

(** X8. The voxel depends on the absolute value of the radius only, and
    mirroring a position through the origin negates its voxel. *)
Theorem voxel_symmetries (fl : Flocker) (b : Boid) :
  getVoxelForBoid (set_PerceptionRadius (- PerceptionRadius fl) fl) b = getVoxelForBoid fl b
  /\ getVoxelForBoid fl (set_position (- position b) b)
     = (let '(x, y, z) := getVoxelForBoid fl b in ((- x)%Z, (- y)%Z, (- z)%Z)).
Proof.
  unfold getVoxelForBoid. simpl. split.
  - now rewrite Rabs_Ropp.
  - unfold Rdiv. rewrite <- !Ropp_mult_distr_l. now rewrite !truncate_opp.
Qed.

(** ** The neighborhood query, for any cache *)

Lemma getNearbyBoids_elem_probe (fl : Flocker) (boids : list Boid) (i : nat) (b : Boid)
  (nb : NearbyBoid) :
  nb ∈ getNearbyBoids fl boids i b -> exists j, nb ∈ probe fl boids i b j.
Proof.
  rewrite getNearbyBoids_block, flat_map_bind, list_elem_of_bind.
  intros (k & Hnb & _). unfold scanVoxel in Hnb.
  rewrite flat_map_bind, list_elem_of_bind in Hnb. destruct Hnb as (j & Hnb & _).
  now exists j.
Qed.

Lemma getNearbyBoids_sound (fl : Flocker) (boids : list Boid) (i : nat) (b : Boid)
  (nb : NearbyBoid) :
  nb ∈ getNearbyBoids fl boids i b ->
  boid nb <> i
  /\ (exists t, boids !! boid nb = Some t
                /\ direction nb = (position t - position b)%V)
  /\ distance nb = glm.length (direction nb)
  /\ 0 <= distance nb <= PerceptionRadius fl.
Proof.
  intros Hnb. apply getNearbyBoids_elem_probe in Hnb as [j Hnb].
  apply probe_elem in Hnb as (t & Ht & (Hij & Hd & _) & ->). simpl.
  split; [congruence |]. split; [now exists t |]. split; [reflexivity |].
  split; [apply length_nonneg | exact Hd].
Qed.

(** X9. Whatever the cache holds, a record returned by [getNearbyBoids]
    names a boid of the collection other than the agent, its direction is
    the vector from the agent to that boid, its distance is the length of
    the direction and is at most the perception radius. *)
Theorem neighbor_record_sound (fl : Flocker) (boids : list Boid) (i : nat) (b : Boid)
  (nb : NearbyBoid) :
  nb ∈ getNearbyBoids fl boids i b ->
  boid nb <> i
  /\ (exists t, boids !! boid nb = Some t
                /\ direction nb = (position t - position b)%V)
  /\ distance nb = glm.length (direction nb)
  /\ 0 <= distance nb <= PerceptionRadius fl.
Proof. apply getNearbyBoids_sound. Qed.

Lemma neighbor_record_sound_witness :
  let b := newBoid (vec3 1 0 0) glm.zero in
  let boids := [b; newBoid (vec3 2.5 0 0) (vec3 1 1 0)] in
  let nb := mkNearbyBoid 1 (vec3 2.5 0 0 - vec3 1 0 0) (glm.length (vec3 2.5 0 0 - vec3 1 0 0)) in
  nb ∈ getNearbyBoids (buildVoxelCache farFlocker boids) boids 0 b
  /\ boid nb <> 0%nat
  /\ (exists t, boids !! boid nb = Some t
                /\ direction nb = (position t - position b)%V)
  /\ distance nb = glm.length (direction nb)
  /\ 0 <= distance nb <= PerceptionRadius (buildVoxelCache farFlocker boids).
Proof.
  intros b boids nb.
  assert (nb ∈ getNearbyBoids (buildVoxelCache farFlocker boids) boids 0 b) as Hin.
  { apply query_elem; [scenario; lra |].
    exists 1%nat, (newBoid (vec3 2.5 0 0) (vec3 1 1 0)). split; [reflexivity |].
    split; [| reflexivity]. split; [lia |]. split; [| now right].
    apply sqrt_le_bound; scenario; lra. }
  split; [exact Hin |].
  exact (neighbor_record_sound (buildVoxelCache farFlocker boids) boids 0 b nb Hin).
Defined.

Lemma probe_self (fl : Flocker) (boids : list Boid) (i : nat) (b : Boid) :
  probe fl boids i b i = [].
Proof.
  destruct (probe fl boids i b i) as [| nb l] eqn:E; [reflexivity |]. exfalso.
  assert (nb ∈ probe fl boids i b i) as H by (rewrite E; now left).
  apply probe_elem in H as (t & _ & (Hii & _) & _). now apply Hii.
Qed.

Lemma probe_length (fl : Flocker) (boids : list Boid) (i : nat) (b : Boid) (j : nat) :
  (length (probe fl boids i b j) <= 1)%nat.
Proof.
  unfold probe. destruct (boids !! j) as [t |]; simpl; [| lia].
  destruct (checkBoid_cases fl i b j t) as [-> | ->]; simpl; lia.
Qed.

Lemma flat_map_probe_length (fl : Flocker) (boids : list Boid) (i : nat) (b : Boid)
  (l : list nat) :
  (length (flat_map (probe fl boids i b) l) <= length l)%nat.
Proof.
  induction l as [| j l IH]; simpl; [lia |].
  rewrite length_app. pose proof (probe_length fl boids i b j). lia.
Qed.

Lemma flat_map_probe_indices_NoDup (fl : Flocker) (boids : list Boid) (i : nat) (b : Boid)
  (l : list nat) :
  NoDup l -> NoDup (map boid (flat_map (probe fl boids i b) l)).
Proof.
  induction 1 as [| j l Hj Hl IH]; simpl; [constructor |].
  rewrite map_app. apply NoDup_app. split; [| split; [| exact IH]].
  - unfold probe. destruct (boids !! j) as [t |]; [| constructor].
    destruct (checkBoid_cases fl i b j t) as [-> | ->]; simpl;
      [constructor | apply NoDup_singleton].
  - intros x Hx Hx'.
    apply list_elem_of_fmap in Hx as (nb & -> & Hnb). apply probe_index in Hnb.
    apply list_elem_of_fmap in Hx' as (nb' & Heq & Hnb').
    rewrite flat_map_bind, list_elem_of_bind in Hnb'. destruct Hnb' as (j' & Hp & Hj').
    apply probe_index in Hp. congruence.
Qed.

Lemma blockMembers_valid (fl : Flocker) (boids : list Boid) (v : Voxel) (j : nat) :
  j ∈ flat_map (fun k => cellMembers fl k 0 boids) (block27 v) -> (j < length boids)%nat.
Proof.
  rewrite flat_map_bind, list_elem_of_bind. intros (k & Hj & _).
  apply cellMembers_0_elem in Hj as (t & Ht & _). now apply lookup_lt_Some in Ht.
Qed.

Lemma getNearbyBoids_count (fl : Flocker) (boids : list Boid) (i : nat) (b : Boid) :
  (i < length boids)%nat ->
  NoDup (map boid (getNearbyBoids (buildVoxelCache fl boids) boids i b))
  /\ (length (getNearbyBoids (buildVoxelCache fl boids) boids i b) < length boids)%nat.
Proof.
  intros Hi. rewrite indexedQuery_probe.
  set (l := flat_map (fun k => cellMembers fl k 0 boids) (block27 (getVoxelForBoid fl b))).
  assert (NoDup l) as Hl by apply blockMembers_NoDup.
  split; [now apply flat_map_probe_indices_NoDup |].
  set (l' := filter (fun j => j <> i) l).
  assert (flat_map (probe fl boids i b) l = flat_map (probe fl boids i b) l') as ->.
  { unfold l'. clear Hl. induction l as [| j l IH]; [reflexivity |].
    rewrite filter_cons. simpl. destruct (decide (j <> i)) as [Hne | Heq].
    - simpl. now rewrite IH.
    - assert (j = i) as -> by (destruct (decide (j = i)); [assumption | contradiction]).
      now rewrite probe_self, IH. }
  pose proof (flat_map_probe_length fl boids i b l') as Hlen.
  assert (NoDup (i :: l')) as Hnd.
  { constructor; [| now apply NoDup_filter].
    unfold l'. rewrite list_elem_of_filter. intros [Hne _]. now apply Hne. }
  assert (i :: l' ⊆ seq 0 (length boids)) as Hsub.
  { intros j Hj. apply elem_of_seq. apply elem_of_cons in Hj as [-> | Hj]; [lia |].
    unfold l' in Hj. apply list_elem_of_filter in Hj as [_ Hj].
    apply blockMembers_valid in Hj. lia. }
  pose proof (submseteq_length _ _ (NoDup_submseteq _ _ Hnd Hsub)) as Hle.
  rewrite length_seq in Hle. simpl in Hle. lia.
Qed.



(** X11. With a negative perception radius the query returns nothing. *)
Theorem negative_radius_no_neighbors (fl : Flocker) (boids : list Boid) (i : nat) (b : Boid) :
  PerceptionRadius fl < 0 -> getNearbyBoids fl boids i b = [].
Proof.
  intros Hr. destruct (getNearbyBoids fl boids i b) as [| nb l] eqn:E; [reflexivity |].
  exfalso. assert (nb ∈ getNearbyBoids fl boids i b) as H by (rewrite E; now left).
  apply getNearbyBoids_sound in H as (_ & _ & _ & H). lra.
Qed.

Lemma negative_radius_no_neighbors_witness :
  let fl := set_PerceptionRadius (-30) farFlocker in
  let boids := [slowBoid; newBoid (vec3 101 0 0) glm.zero] in
  getNearbyBoids (buildVoxelCache fl boids) boids 0 slowBoid = [].
Proof.
  intros fl boids.
  apply (negative_radius_no_neighbors (buildVoxelCache fl boids) boids 0 slowBoid).
  simpl. lra.
Defined.

(** ** The field-of-view test *)

Lemma cauchy_schwarz (a b : Vec3) : glm.dot a b ^ 2 <= glm.dot a a * glm.dot b b.
Proof.
  assert (glm.dot a a * glm.dot b b - glm.dot a b ^ 2
          = glm.dot (glm.cross a b) (glm.cross a b)) as H
    by (unfold glm.dot, glm.cross; simpl; ring).
  pose proof (dot_self_nonneg (glm.cross a b)). lra.
Qed.

Lemma dot_le_lengths (a b : Vec3) :
  - (glm.length a * glm.length b) <= glm.dot a b <= glm.length a * glm.length b.
Proof.
  pose proof (cauchy_schwarz a b) as Hcs.
  pose proof (length_sqr a) as Ha. pose proof (length_sqr b) as Hb.
  pose proof (length_nonneg a). pose proof (length_nonneg b).
  set (la := glm.length a) in *. set (lb := glm.length b) in *.
  assert (glm.dot a b ^ 2 <= (la * lb) ^ 2) as Hsq by nra.
  assert (0 <= la * lb) by nra.
  split; nra.
Qed.





(** ** What a step changes and what it keeps *)

Lemma updateAcceleration_kinematics (fl : Flocker) (boids : list Boid) :
  sameKinematics boids (snd (updateAcceleration fl boids)).
Proof.
  unfold updateAcceleration.
  now destruct (updateBoids_lookup (seq 0 (length boids))
                  (buildVoxelCache
                     (if decide (PerceptionRadius fl = 0)
                      then set_PerceptionRadius 1 fl else fl)
                     boids) boids (NoDup_seq _ _)) as [Hk _].
Qed.

(** X14. The first phase writes accelerations only: [updateAcceleration]
    keeps the number of boids, and every boid keeps its position, velocity,
    motion normal, size and avoidance flag. *)
Theorem updateAcceleration_frame (fl : Flocker) (boids : list Boid) :
  length (snd (updateAcceleration fl boids)) = length boids
  /\ forall i b, boids !! i = Some b ->
       exists a, snd (updateAcceleration fl boids) !! i = Some (set_acceleration a b).
Proof.
  pose proof (updateAcceleration_kinematics fl boids) as Hk. split.
  - symmetry. exact (Forall2_length _ _ _ Hk).
  - intros i b Hb. exact (sameKinematics_lookup _ _ _ _ Hk Hb).
Qed.

Lemma steerAway_static (fl : Flocker) (dt : R) (b : Boid) :
  motion_normal (steerAway fl dt b) = motion_normal b
  /\ bsize (steerAway fl dt b) = bsize b.
Proof.
  unfold steerAway. destruct (avoidanceDirection fl b) as [flag [target |]]; simpl.
  - now destruct (_ && _).
  - easy.
Qed.

Lemma integrate_static (fl : Flocker) (dt : R) (b : Boid) :
  motion_normal (integrate fl dt b) = motion_normal b
  /\ bsize (integrate fl dt b) = bsize b.
Proof.
  destruct (steerAway_static fl dt b) as [Hn Hs].
  unfold integrate. destruct (steerAway fl dt b) as [p0 v0 a0 n0 s0 f0].
  simpl in *. subst n0 s0. now destruct (insideSphere fl _).
Qed.

Lemma update_length (fl : Flocker) (boids : list Boid) (dt : R) :
  length (snd (update fl boids dt)) = length boids.
Proof.
  rewrite update_boids, length_map. symmetry.
  exact (Forall2_length _ _ _ (updateAcceleration_kinematics _ boids)).
Qed.

(** X15. A step keeps the number of boids and the motion normal and size of
    each, and the avoidance flag it leaves is the one [avoidanceDirection]
    computes from the position and velocity before the step: the flag and
    the acceleration of earlier steps have no influence on it. *)
Theorem update_frame (fl : Flocker) (boids : list Boid) (dt : R) (i : nat) (b : Boid) :
  boids !! i = Some b ->
  length (snd (update fl boids dt)) = length boids
  /\ exists b',
       snd (update fl boids dt) !! i = Some b'
       /\ motion_normal b' = motion_normal b
       /\ bsize b' = bsize b
       /\ avoidance b' = fst (avoidanceDirection fl b)
       /\ forall f a, avoidanceDirection fl (set_avoidance f (set_acceleration a b))
                      = avoidanceDirection fl b.
Proof.
  intros Hb. split; [apply update_length |].
  destruct (update_lookup fl boids dt i b Hb) as [e He].
  eexists. split; [exact He |].
  destruct (integrate_static fl dt
              (set_acceleration
                 (clampLength (unclamped (set_eng e (prepared fl boids)) boids i b)
                    (MaxAcceleration fl)) b)) as [Hn Hs].
  destruct (integrate_fields fl dt
              (set_acceleration
                 (clampLength (unclamped (set_eng e (prepared fl boids)) boids i b)
                    (MaxAcceleration fl)) b)) as (_ & _ & _ & Hf).
  split; [exact Hn |]. split; [exact Hs |]. split; [exact Hf |].
  intros f a. reflexivity.
Qed.

Lemma update_frame_witness :
  let boids := [slowBoid; remoteBoid] in
  length (snd (update farFlocker boids 1)) = length boids
  /\ exists b',
       snd (update farFlocker boids 1) !! 1%nat = Some b'
       /\ motion_normal b' = motion_normal remoteBoid
       /\ bsize b' = bsize remoteBoid
       /\ avoidance b' = fst (avoidanceDirection farFlocker remoteBoid)
       /\ forall f a, avoidanceDirection farFlocker
                        (set_avoidance f (set_acceleration a remoteBoid))
                      = avoidanceDirection farFlocker remoteBoid.
Proof.
  intros boids. apply (update_frame farFlocker boids 1 1 remoteBoid). reflexivity.
Defined.

Lemma length_scale_abs (k : R) (a : Vec3) : glm.length (k * a) = Rabs k * glm.length a.
Proof.
  unfold glm.length.
  replace (glm.dot (k * a) (k * a)) with ((Rabs k * Rabs k) * glm.dot a a).
  - pose proof (Rabs_pos k). rewrite sqrt_mult_alt by nra. now rewrite sqrt_square.
  - unfold glm.dot, glm.scale; simpl.
    assert (Rabs k * Rabs k = k * k) as ->
      by (unfold Rabs; destruct (Rcase_abs k); ring).
    ring.
Qed.



(** X17. A step with [dt = 0] moves no agent, for every configuration. *)
Theorem zero_dt_no_motion (fl : Flocker) (boids : list Boid) (i : nat) (b : Boid) :
  boids !! i = Some b ->
  exists b', snd (update fl boids 0) !! i = Some b' /\ position b' = position b.
Proof.
  intros Hb. destruct (update_lookup fl boids 0 i b Hb) as [e He].
  eexists. split; [exact He |].
  set (b1 := set_acceleration _ b).
  destruct (integrate_fields fl 0 b1) as (Hp & _). rewrite Hp.
  apply vec3_eq; simpl; ring.
Qed.

Lemma zero_dt_no_motion_witness :
  exists b', snd (update driverFlocker [innerBoid] 0) !! 0%nat = Some b'
             /\ position b' = position innerBoid.
Proof. apply (zero_dt_no_motion driverFlocker [innerBoid] 0 innerBoid). reflexivity. Defined.

(** ** The random engine is used for coincident agents only *)








(** ** Steering *)

Lemma chooseTarget_spec (fl : Flocker) (b : Boid) (targets : list Vec3) (st : Vec3) (td : R) :
  let f := fun t => transformDistance (glm.length (position b - t)) (SteeringTargetType fl) in
  let chosen := chooseTarget fl b targets (st, td) in
  (0 <= td \/ targets <> [] -> 0 <= snd chosen)
  /\ (forall t, t ∈ targets -> snd chosen <= f t)
  /\ (chosen = (st, td) \/ (fst chosen ∈ targets /\ snd chosen = f (fst chosen)))
  /\ (0 <= td -> snd chosen <= td).
Proof.
  intros f. revert st td. induction targets as [| target rest IH]; intros st td; simpl.
  - split; [intros [H | H]; [exact H | contradiction] |].
    split; [intros t H; inversion H |]. split; [now left | lra].
  - fold (f target).
    assert (0 <= f target) as Hf by (apply transformDistance_nonneg, length_nonneg).
    destruct (bool_decide (td < 0) || bool_decide (f target < td)) eqn:E.
    + destruct (IH target (f target)) as (P1 & P2 & P3 & P4).
      specialize (P1 (or_introl Hf)). specialize (P4 Hf).
      split; [intros _; exact P1 |]. split.
      * intros t Ht. apply elem_of_cons in Ht as [-> | Ht]; [exact P4 | now apply P2].
      * split.
        -- right. destruct P3 as [-> | [Hin Heq]]; simpl.
           ++ split; [now left | reflexivity].
           ++ split; [now right | exact Heq].
        -- intros Htd. apply orb_prop in E as [E | E]; apply bool_decide_eq_true in E; lra.
    + apply orb_false_elim in E as [E1 E2]. apply bool_decide_eq_false in E1, E2.
      destruct (IH st td) as (P1 & P2 & P3 & P4).
      assert (0 <= td) as Htd by lra. specialize (P1 (or_introl Htd)). specialize (P4 Htd).
      split; [intros _; exact P1 |]. split.
      * intros t Ht. apply elem_of_cons in Ht as [-> | Ht]; [lra | now apply P2].
      * split; [| intros _; exact P4].
        destruct P3 as [-> | [Hin Heq]]; [now left | right].
        split; [now right | exact Heq].
Qed.

Lemma chooseTarget_minimal (fl : Flocker) (b : Boid) :
  SteeringTargets fl <> [] ->
  let f := fun t => transformDistance (glm.length (position b - t)) (SteeringTargetType fl) in
  let chosen := chooseTarget fl b (SteeringTargets fl) (position b, -1) in
  fst chosen ∈ SteeringTargets fl
  /\ snd chosen = f (fst chosen)
  /\ forall t, t ∈ SteeringTargets fl -> snd chosen <= f t.
Proof.
  intros Hne f chosen.
  destruct (chooseTarget_spec fl b (SteeringTargets fl) (position b) (-1))
    as (P1 & P2 & P3 & _).
  fold f in P2, P3. fold chosen in P1, P2, P3.
  specialize (P1 (or_intror Hne)).
  destruct P3 as [Heq | [Hin Hval]].
  - rewrite Heq in P1. simpl in P1. lra.
  - split; [exact Hin |]. split; [exact Hval | exact P2].
Qed.

(** X20. When there are targets, the loop of [updateBoid] chooses one of
    them, records its curve value, and no target has a smaller curve value:
    with an inverse curve this is a farthest target, not a nearest one. *)
Theorem chosen_target_minimal (fl : Flocker) (b : Boid) :
  SteeringTargets fl <> [] ->
  let f := fun t => transformDistance (glm.length (position b - t)) (SteeringTargetType fl) in
  let chosen := chooseTarget fl b (SteeringTargets fl) (position b, -1) in
  fst chosen ∈ SteeringTargets fl
  /\ snd chosen = f (fst chosen)
  /\ forall t, t ∈ SteeringTargets fl -> snd chosen <= f t.
Proof. apply chooseTarget_minimal. Qed.

Lemma chosen_target_minimal_witness :
  let fl := defaultFlocker [vec3 10 0 0; vec3 0 3 4] glm.zero 1 5 in
  let b := originBoid in
  let f := fun t => transformDistance (glm.length (position b - t)) (SteeringTargetType fl) in
  let chosen := chooseTarget fl b (SteeringTargets fl) (position b, -1) in
  fst chosen ∈ SteeringTargets fl
  /\ snd chosen = f (fst chosen)
  /\ forall t, t ∈ SteeringTargets fl -> snd chosen <= f t.
Proof.
  intros fl b. apply (chosen_target_minimal fl b). discriminate.
Defined.

Lemma any_equal_false_nonzero (a p : Vec3) :
  glm.any_equal a p = false -> glm.length (a - p) <> 0.
Proof.
  unfold glm.any_equal. intros H.
  apply orb_false_elim in H as [H _]. apply orb_false_elim in H as [H _].
  apply bool_decide_eq_false in H. intros H0. apply length_eq_0 in H0.
  apply (f_equal vx) in H0. simpl in H0. lra.
Qed.

Lemma normalize_unit (w : Vec3) : glm.length w <> 0 -> glm.length (glm.normalize w) = 1.
Proof.
  intros Hw. pose proof (length_nonneg w). unfold glm.normalize. fold (glm.length w).
  rewrite length_scale by (apply Rlt_le, Rdiv_lt_0_compat; lra). field. exact Hw.
Qed.

(** X21. When no coordinate of the chosen target equals that of the agent,
    the steering term has the curve value of the target as its length; with
    the LINEAR curve it is the vector from the agent to the target. *)
Theorem steering_magnitude (fl : Flocker) (b : Boid) :
  SteeringTargets fl <> [] ->
  let chosen := chooseTarget fl b (SteeringTargets fl) (position b, -1) in
  glm.any_equal (fst chosen) (position b) = false ->
  glm.length (steeringOf fl b) = snd chosen
  /\ (SteeringTargetType fl = LINEAR ->
      steeringOf fl b = (fst chosen - position b)%V).
Proof.
  intros Hne chosen Hany.
  destruct (chooseTarget_minimal fl b Hne) as (_ & Hval & _). fold chosen in Hval.
  destruct (steeringOf_cases fl b) as [_ Hst]. fold chosen in Hst.
  rewrite (Hst Hany).
  pose proof (any_equal_false_nonzero _ _ Hany) as Hnz.
  assert (0 <= snd chosen) as Hpos
    by (rewrite Hval; apply transformDistance_nonneg, length_nonneg).
  split.
  - rewrite length_scale by exact Hpos. rewrite (normalize_unit _ Hnz). ring.
  - intros Hlin. rewrite Hval, Hlin. simpl.
    assert (glm.length (position b - fst chosen) = glm.length (fst chosen - position b)) as ->
      by (unfold glm.length; f_equal; unfold glm.dot; simpl; ring).
    unfold glm.normalize. fold (glm.length (fst chosen - position b)).
    apply vec3_eq; simpl; field; exact Hnz.
Qed.

Lemma steering_magnitude_witness :
  let fl := defaultFlocker [vec3 1 2 2] glm.zero 1 5 in
  let chosen := chooseTarget fl originBoid (SteeringTargets fl) (position originBoid, -1) in
  glm.length (steeringOf fl originBoid) = snd chosen
  /\ (SteeringTargetType fl = LINEAR ->
      steeringOf fl originBoid = (fst chosen - position originBoid)%V).
Proof.
  intros fl. apply (steering_magnitude fl originBoid); [discriminate |].
  unfold fl, defaultFlocker. simpl.
  rewrite (bool_decide_eq_true_2 (-1 < 0)) by lra. simpl.
  unfold glm.any_equal. simpl.
  rewrite !bool_decide_eq_false_2 by lra. reflexivity.
Defined.

(** ** The escape direction *)

Lemma fdiv_None (x y : R) : y = 0 -> fdiv x y = None.
Proof. intros H. unfold fdiv. now rewrite decide_True. Qed.

Lemma escapeDirection_inv (fl : Flocker) (b : Boid) (u : Vec3) :
  escapeDirection fl b = Some u ->
  let w := (projectedCenter fl b - position b)%V in
  let L := glm.length w in
  exists sin_theta cos_theta sign : R,
    0 <= tangentArg fl b /\ L <> 0
    /\ sin_theta * L = sqrt (tangentArg fl b)
    /\ 0 <= cos_theta /\ cos_theta * cos_theta = 1 - sin_theta * sin_theta
    /\ sign * sign = 1
    /\ u = ((cos_theta * w) / L
            + ((sign * sin_theta) * glm.cross (motion_normal b) w) / L)%V.
Proof.
  intros H w L. unfold escapeDirection in H. fold w in H. fold L in H.
  destruct (Rle_lt_dec 0 (tangentArg fl b)) as [Ht | Ht];
    [| rewrite (fsqrt_None _ Ht) in H; discriminate].
  rewrite (fsqrt_Some _ Ht) in H. cbn [mbind option_bind] in H.
  destruct (decide (L = 0)) as [HL | HL].
  { rewrite (fdiv_None _ _ HL) in H. discriminate. }
  rewrite (fdiv_Some _ _ HL) in H. cbn [mbind option_bind] in H.
  set (sn := sqrt (tangentArg fl b) / L) in *.
  destruct (Rle_lt_dec 0 (1 - sn * sn)) as [Hc | Hc];
    [| rewrite (fsqrt_None _ Hc) in H; discriminate].
  rewrite (fsqrt_Some _ Hc) in H. cbn [mbind option_bind] in H. injection H as <-.
  exists sn, (sqrt (1 - sn * sn)),
    (if decide (glm.dot (motion_normal b) (glm.cross w (velocity b)) > 0) then 1 else -1).
  split; [exact Ht |]. split; [exact HL |].
  split; [unfold sn; field; exact HL |].
  split; [apply sqrt_pos |]. split; [now apply sqrt_sqrt |].
  split; [destruct (decide _); ring | reflexivity].
Qed.

Lemma projected_in_plane (fl : Flocker) (b : Boid) :
  glm.dot (motion_normal b) (motion_normal b) = 1 ->
  glm.dot (motion_normal b) (projectedCenter fl b - position b) = 0.
Proof.
  intros Hn. unfold projectedCenter.
  replace (glm.dot (motion_normal b)
             (CollisionCenter fl
              - glm.dot (motion_normal b) (CollisionCenter fl - position b) * motion_normal b
              - position b))
    with (glm.dot (motion_normal b) (CollisionCenter fl - position b)
          * (1 - glm.dot (motion_normal b) (motion_normal b)))
    by (unfold glm.dot; simpl; ring).
  rewrite Hn. ring.
Qed.

Lemma combination_dot (al be L : R) (w c x : Vec3) :
  L <> 0 ->
  glm.dot ((al * w) / L + (be * c) / L) x = (al * glm.dot w x + be * glm.dot c x) / L.
Proof. intros HL. unfold glm.dot. simpl. field. exact HL. Qed.

Lemma dot_comm (a b : Vec3) : glm.dot a b = glm.dot b a.
Proof. unfold glm.dot. ring. Qed.

Lemma cross_facts (n w : Vec3) :
  glm.dot n (glm.cross n w) = 0
  /\ glm.dot w (glm.cross n w) = 0
  /\ glm.dot (glm.cross n w) (glm.cross n w)
     = glm.dot n n * glm.dot w w - glm.dot n w ^ 2.
Proof. unfold glm.dot, glm.cross. simpl. repeat split; ring. Qed.

(** X22. When [avoidanceDirection] computes an escape direction for an
    agent whose motion normal is a unit vector, that direction is a unit
    vector and lies in the plane of motion. *)
Theorem escape_direction_unit (fl : Flocker) (b : Boid) (u : Vec3) :
  glm.dot (motion_normal b) (motion_normal b) = 1 ->
  escapeDirection fl b = Some u ->
  glm.length u = 1 /\ glm.dot (motion_normal b) u = 0.
Proof.
  intros Hn Hu.
  destruct (escapeDirection_inv fl b u Hu) as (sn & cs & sg & Ht & HL & Hs & Hc0 & Hc & Hsg & ->).
  set (w := (projectedCenter fl b - position b)%V) in *.
  set (L := glm.length w) in *.
  set (c := glm.cross (motion_normal b) w).
  pose proof (projected_in_plane fl b Hn) as Hnw. fold w in Hnw.
  destruct (cross_facts (motion_normal b) w) as (Hnc & Hwc & Hcc). fold c in Hnc, Hwc, Hcc.
  rewrite Hn, Hnw in Hcc.
  pose proof (length_sqr w) as HLL. fold L in HLL.
  assert (glm.dot c w = 0) as Hcw by (rewrite dot_comm; exact Hwc).
  split.
  - apply sqrt_of_square; [lra |].
    rewrite combination_dot by exact HL.
    rewrite (dot_comm w), (dot_comm c), !combination_dot by exact HL.
    rewrite Hwc, Hcw, Hcc, <- HLL.
    replace ((cs * ((cs * (L * L) + sg * sn * 0) / L)
              + sg * sn * ((cs * 0 + sg * sn * (1 * (L * L) - 0 ^ 2)) / L)) / L)
      with (cs * cs + (sg * sg) * (sn * sn)) by (field; exact HL).
    rewrite Hc, Hsg. ring.
  - rewrite dot_comm, combination_dot by exact HL.
    rewrite (dot_comm w), (dot_comm c), Hnw, Hnc. field. exact HL.
Qed.

(** X23. The escape direction is tangent to the padded sphere within the
    plane of motion: the line from the agent along it passes the projected
    centre at the distance [s], the radius of the circle in which the
    sphere cuts the plane, and it does not point away from that centre. *)
Theorem escape_direction_tangent (fl : Flocker) (b : Boid) (u : Vec3) :
  glm.dot (motion_normal b) (motion_normal b) = 1 ->
  escapeDirection fl b = Some u ->
  let w := (projectedCenter fl b - position b)%V in
  glm.dot w w - glm.dot u w ^ 2 = tangentArg fl b
  /\ 0 <= glm.dot u w.
Proof.
  intros Hn Hu w.
  destruct (escapeDirection_inv fl b u Hu) as (sn & cs & sg & Ht & HL & Hs & Hc0 & Hc & Hsg & ->).
  fold w in HL, Hs |- *. set (L := glm.length w) in *.
  destruct (cross_facts (motion_normal b) w) as (_ & Hwc & _).
  pose proof (length_sqr w) as HLL. fold L in HLL.
  pose proof (length_nonneg w) as HL0. fold L in HL0.
  assert (glm.dot (glm.cross (motion_normal b) w) w = 0) as Hcw
    by (rewrite dot_comm; exact Hwc).
  assert (glm.dot ((cs * w) / L + ((sg * sn) * glm.cross (motion_normal b) w) / L) w
          = cs * L) as ->.
  { rewrite combination_dot by exact HL. rewrite Hcw, <- HLL. field. exact HL. }
  pose proof (sqrt_sqrt _ Ht) as Hss. rewrite <- Hs in Hss.
  split; [| nra].
  rewrite <- HLL, <- Hss.
  replace ((cs * L) ^ 2) with (cs * cs * (L * L)) by ring. rewrite Hc. ring.
Qed.

Lemma approaching_escape :
  escapeDirection farFlocker approachingBoid = Some (vec3 0.8 (-0.6) 0).
Proof.
  assert (tangentArg farFlocker approachingBoid = 1.5 * 1.5) as Ht
    by (unfold tangentArg; scenario; lra).
  assert (projectedCenter farFlocker approachingBoid - position approachingBoid
          = vec3 2.5 0 0)%V as Hc by (unfold projectedCenter; vec_lra).
  assert (glm.length (vec3 2.5 0 0) = 2.5) as HL
    by (apply sqrt_of_square; [lra | scenario; lra]).
  assert (fsqrt (1.5 * 1.5) = Some 1.5) as Hs
    by (rewrite fsqrt_Some by lra; f_equal; apply sqrt_square; lra).
  assert (fsqrt (1 - 1.5 / 2.5 * (1.5 / 2.5)) = Some 0.8) as Hcos
    by (rewrite fsqrt_Some by lra; f_equal; apply sqrt_of_square; lra).
  unfold escapeDirection. rewrite Ht, Hs, Hc, HL. cbn [mbind option_bind].
  rewrite fdiv_Some by lra. cbn [mbind option_bind]. rewrite Hcos. cbn [mbind option_bind].
  rewrite decide_False by (scenario; lra).
  f_equal. apply vec3_eq; scenario; lra.
Qed.

Lemma escape_direction_unit_witness :
  escapeDirection farFlocker approachingBoid = Some (vec3 0.8 (-0.6) 0)
  /\ glm.length (vec3 0.8 (-0.6) 0) = 1
  /\ glm.dot (motion_normal approachingBoid) (vec3 0.8 (-0.6) 0) = 0.
Proof.
  split; [exact approaching_escape |].
  apply (escape_direction_unit farFlocker approachingBoid (vec3 0.8 (-0.6) 0));
    [scenario; lra | exact approaching_escape].
Defined.

Lemma escape_direction_tangent_witness :
  let w := (projectedCenter farFlocker approachingBoid - position approachingBoid)%V in
  glm.dot w w - glm.dot (vec3 0.8 (-0.6) 0) w ^ 2 = tangentArg farFlocker approachingBoid
  /\ 0 <= glm.dot (vec3 0.8 (-0.6) 0) w.
Proof.
  apply (escape_direction_tangent farFlocker approachingBoid (vec3 0.8 (-0.6) 0));
    [scenario; lra | exact approaching_escape].
Defined.

(** ** Where avoidance engages *)

Lemma sqrt_gt_bound_le (x m : R) : 0 <= m -> m * m <= x -> m <= sqrt x.
Proof.
  intros Hm Hx. rewrite <- (sqrt_square m Hm). apply sqrt_le_1_alt. exact Hx.
Qed.

Lemma triangle_inequality (a b : Vec3) :
  glm.length (a + b) <= glm.length a + glm.length b.
Proof.
  pose proof (length_nonneg a). pose proof (length_nonneg b).
  pose proof (length_sqr a) as Ha. pose proof (length_sqr b) as Hb.
  pose proof (dot_le_lengths a b) as [_ Hab].
  apply sqrt_le_bound; [lra |].
  replace (glm.dot (a + b) (a + b)) with (glm.dot a a + 2 * glm.dot a b + glm.dot b b)
    by (unfold glm.dot; simpl; ring).
  nra.
Qed.

Lemma avoidance_active_inv (fl : Flocker) (b : Boid) :
  fst (avoidanceDirection fl b) = true ->
  velocity b <> glm.zero ->
  0 <= discriminant fl b
  /\ glm.dot (2 * velocity b) (position b - CollisionCenter fl)
     + sqrt (discriminant fl b) <= 0
  /\ - (glm.dot (2 * velocity b) (position b - CollisionCenter fl)
        + sqrt (discriminant fl b)) * glm.length (velocity b)
       / (2 * glm.length2 (velocity b)) < paddedRadius fl.
Proof.
  intros Hact Hv. pose proof (velocity_nonzero_length2 _ Hv) as Ha.
  unfold avoidanceDirection in Hact.
  destruct (bool_decide (discriminant fl b >= 0)) eqn:E1; simpl in Hact; [| discriminate].
  destruct (bool_decide (_ + sqrt _ <= 0)) eqn:E2; simpl in Hact; [| discriminate].
  apply bool_decide_eq_true in E1, E2.
  rewrite fdiv_Some in Hact by (unfold glm.length2; lra).
  destruct (bool_decide (_ >= paddedRadius fl)) eqn:E3; simpl in Hact; [discriminate |].
  apply bool_decide_eq_false in E3. split; [lra |]. split; [exact E2 | lra].
Qed.

(** X24. Avoidance engages for a moving agent only when it is heading
    toward the sphere, is on or outside the padded sphere, and is closer to
    the centre than twice the padded radius. *)
Theorem avoidance_active_region (fl : Flocker) (b : Boid) :
  fst (avoidanceDirection fl b) = true ->
  velocity b <> glm.zero ->
  glm.dot (velocity b) (position b - CollisionCenter fl) <= 0
  /\ paddedRadius fl <= glm.length (position b - CollisionCenter fl)
  /\ glm.length (position b - CollisionCenter fl) < 2 * paddedRadius fl.
Proof.
  intros Hact Hv.
  destruct (avoidance_active_inv fl b Hact Hv) as (Hd & Hsee & Hreach).
  pose proof (active_outside_sphere fl b Hv Hd Hsee) as Hout.
  pose proof (velocity_nonzero_length2 _ Hv) as Ha.
  pose proof (sqrt_pos (discriminant fl b)) as Hs0.
  pose proof (sqrt_sqrt _ Hd) as Hss.
  pose proof (length_nonneg (velocity b)) as Hlv0.
  pose proof (length_sqr (velocity b)) as Hlv.
  unfold discriminant, glm.length2 in *. rewrite !dot_scale_l in *.
  set (d := (position b - CollisionCenter fl)%V) in *.
  set (v := velocity b) in *. set (R' := paddedRadius fl) in *.
  set (sd := sqrt (2 * glm.dot v d * (2 * glm.dot v d)
                   - 4 * glm.dot v v * (glm.dot d d - R' * R'))) in *.
  set (t := - (2 * glm.dot v d + sd) / (2 * glm.dot v v)).
  assert (0 <= t) as Ht
    by (unfold t; apply Rmult_le_pos; [lra | apply Rlt_le, Rinv_0_lt_compat; lra]).
  assert (t * glm.length v < R') as Hr.
  { replace (t * glm.length v)
      with (- (2 * glm.dot v d + sd) * glm.length v / (2 * glm.dot v v))
      by (unfold t; field; lra). exact Hreach. }
  assert (0 < R') as HR by nra.
  assert (glm.dot (d + t * v) (d + t * v) = R' * R') as Hq.
  { replace (glm.dot (d + t * v) (d + t * v))
      with (glm.dot d d + t * (2 * glm.dot v d) + t * t * glm.dot v v)
      by (unfold glm.dot; simpl; ring).
    assert (glm.dot v v * (t * t) + 2 * glm.dot v d * t
            = - (glm.dot d d - R' * R')) as Hroot.
    { unfold t. apply Rmult_eq_reg_l with (4 * glm.dot v v); [| lra].
      replace (4 * glm.dot v v
               * (glm.dot v v * (- (2 * glm.dot v d + sd) / (2 * glm.dot v v)
                                 * (- (2 * glm.dot v d + sd) / (2 * glm.dot v v)))
                  + 2 * glm.dot v d * (- (2 * glm.dot v d + sd) / (2 * glm.dot v v))))
        with (sd * sd - 2 * glm.dot v d * (2 * glm.dot v d)) by (field; lra).
      rewrite Hss. ring. }
    lra. }
  assert (glm.length (d + t * v) = R') as HqL
    by (apply sqrt_of_square; [lra | exact Hq]).
  split; [lra |]. split.
  - apply sqrt_gt_bound_le; [lra | exact Hout].
  - pose proof (triangle_inequality (d + t * v) ((- t) * v)) as Htri.
    replace (d + t * v + (- t) * v)%V with d in Htri by (apply vec3_eq; simpl; ring).
    rewrite HqL, length_scale_abs, Rabs_Ropp, Rabs_pos_eq in Htri by exact Ht. lra.
Qed.

Lemma approaching_active : fst (avoidanceDirection farFlocker approachingBoid) = true.
Proof.
  now rewrite (avoidance_active_at farFlocker approachingBoid (-5) 3 1)
    by (unfold discriminant; scenario; lra).
Qed.

Lemma avoidance_active_region_witness :
  glm.dot (velocity approachingBoid) (position approachingBoid - CollisionCenter farFlocker)
  <= 0
  /\ paddedRadius farFlocker
     <= glm.length (position approachingBoid - CollisionCenter farFlocker)
  /\ glm.length (position approachingBoid - CollisionCenter farFlocker)
     < 2 * paddedRadius farFlocker.
Proof.
  apply (avoidance_active_region farFlocker approachingBoid); [exact approaching_active |].
  intros H. apply (f_equal vx) in H. simpl in H. lra.
Defined.

(** ** The fallback when the sphere is at the origin *)

(** X25. When the collision sphere is centred at the origin, the fallback
    correction is a tenth of the vector from the centre to the agent, and
    the speed after a step is at most [MaxVelocity + 0.1 * |CollisionRadius|]
    for a maximum velocity that is not negative. *)
Theorem velocity_bound_origin_sphere (fl : Flocker) (boids : list Boid) (dt : R)
  (i : nat) (b' : Boid) :
  CollisionCenter fl = glm.zero ->
  0 <= MaxVelocity fl ->
  snd (update fl boids dt) !! i = Some b' ->
  (forall p, fallbackCorrection fl p = (0.1 * (p - CollisionCenter fl))%V)
  /\ glm.length (velocity b') <= MaxVelocity fl + 0.1 * Rabs (CollisionRadius fl).
Proof.
  intros Hc Hmax Hb'.
  assert (forall p, fallbackCorrection fl p = (0.1 * (p - CollisionCenter fl))%V) as Hfb.
  { intros p. unfold fallbackCorrection. rewrite Hc. apply vec3_eq; simpl; ring. }
  split; [exact Hfb |].
  destruct (update_lookup_integrate fl boids dt i b' Hb') as [b1 ->].
  destruct (integrate_fields fl dt b1) as (_ & Hv & _). rewrite Hv.
  set (v2 := clampLength _ (MaxVelocity fl)).
  set (p := (position b1 + dt * v2)%V).
  pose proof (clampLength_bound
                (velocity (steerAway fl dt b1) + dt * acceleration b1)%V
                (MaxVelocity fl) Hmax) as Hv2. fold v2 in Hv2.
  pose proof (Rabs_pos (CollisionRadius fl)) as Hr0.
  destruct (insideSphere fl p) eqn:Hin; [| lra].
  unfold insideSphere in Hin. apply bool_decide_eq_true in Hin.
  pose proof (triangle_inequality v2 (fallbackCorrection fl p)) as Htri.
  rewrite Hfb, length_scale in Htri by lra.
  assert (glm.length (p - CollisionCenter fl) <= Rabs (CollisionRadius fl)) as Hp.
  { apply sqrt_le_bound; [exact Hr0 |]. unfold glm.length2 in Hin.
    assert (Rabs (CollisionRadius fl) * Rabs (CollisionRadius fl)
            = CollisionRadius fl * CollisionRadius fl) as ->
      by (unfold Rabs; destruct (Rcase_abs _); ring).
    lra. }
  rewrite Hfb. lra.
Qed.

Lemma velocity_bound_origin_sphere_witness :
  let b' := integrate farFlocker 1 (set_acceleration glm.zero fastBoid) in
  snd (update farFlocker [fastBoid] 1) !! 0%nat = Some b'
  /\ (forall p, fallbackCorrection farFlocker p
                = (0.1 * (p - CollisionCenter farFlocker))%V)
  /\ glm.length (velocity b')
     <= MaxVelocity farFlocker + 0.1 * Rabs (CollisionRadius farFlocker).
Proof.
  intros b'. destruct fastBoid_step as (Hl & _).
  split; [exact Hl |].
  apply (velocity_bound_origin_sphere farFlocker [fastBoid] 1 0 b');
    [reflexivity | simpl; lra | exact Hl].
Defined.

(** ** Alignment and the coincidence kick *)

Lemma sumNearby_heading (fl : Flocker) (boids : list Boid) (w : Vec3)
  (nearby : list NearbyBoid) (s h p : Vec3) (e : Engine) :
  (forall nb, nb ∈ nearby -> exists t, boids !! boid nb = Some t /\ velocity t = w) ->
  exists s' h' p' e',
    sumNearby fl boids nearby (s, h, p, e) = (s', h', p', e')
    /\ h' = (h + INR (length nearby) * w)%V.
Proof.
  revert s h p e. induction nearby as [| nb nearby IH]; intros s h p e Hw.
  - exists s, h, p, e. split; [reflexivity |]. apply vec3_eq; simpl; ring.
  - destruct (Hw nb) as (t & Ht & Hv); [now left |].
    assert (forall nb', nb' ∈ nearby ->
              exists t', boids !! boid nb' = Some t' /\ velocity t' = w) as Hw'
      by (intros nb' H; apply Hw; now right).
    cbn [sumNearby].
    destruct (decide (distance nb = 0)).
    + destruct (getRandomUniform e) as [rnd e1]. rewrite Ht.
      destruct (IH (s + 1000 * rnd)%V (h + velocity t)%V (p + position t)%V e1 Hw')
        as (s' & h' & p' & e' & Heq & Hh).
      exists s', h', p', e'. split; [exact Heq |]. rewrite Hh, Hv.
      change (length (nb :: nearby)) with (S (length nearby)). rewrite S_INR.
      apply vec3_eq; simpl; ring.
    + rewrite Ht.
      destruct (IH (s + transformDistance (distance nb) (SeparationType fl)
                        * (- direction nb))%V
                  (h + velocity t)%V (p + position t)%V e Hw')
        as (s' & h' & p' & e' & Heq & Hh).
      exists s', h', p', e'. split; [exact Heq |]. rewrite Hh, Hv.
      change (length (nb :: nearby)) with (S (length nearby)). rewrite S_INR.
      apply vec3_eq; simpl; ring.
Qed.

(** X26. When every other boid of the collection has the velocity [w] and
    the agent perceives at least one of them, the alignment term is [w]. *)
Theorem alignment_uniform_heading (fl : Flocker) (boids : list Boid) (i : nat) (b : Boid)
  (w : Vec3) :
  getNearbyBoids fl boids i b <> [] ->
  (forall j t, boids !! j = Some t -> j <> i -> velocity t = w) ->
  exists separation cohesion steering e,
    forces fl boids i b = (separation, w, cohesion, steering, e).
Proof.
  intros Hne Hw. unfold forces.
  destruct (sumNearby_heading fl boids w (getNearbyBoids fl boids i b)
              glm.zero glm.zero glm.zero (eng fl)) as (s' & h' & p' & e' & Heq & Hh).
  { intros nb Hnb. apply getNearbyBoids_sound in Hnb as (Hi & (t & Ht & _) & _).
    exists t. split; [exact Ht | exact (Hw _ _ Ht Hi)]. }
  rewrite Heq.
  assert (0 < length (getNearbyBoids fl boids i b))%nat as Hn
    by (destruct (getNearbyBoids fl boids i b); [contradiction | simpl; lia]).
  rewrite !decide_True by exact Hn.
  eexists _, _, _, _. f_equal. f_equal. f_equal. f_equal.
  rewrite Hh. apply lt_0_INR in Hn.
  apply vec3_eq; simpl; field; lra.
Qed.

Lemma restingPair_neighbor :
  let b := newBoid (vec3 1 0 0) glm.zero in
  let t := newBoid (vec3 2.5 0 0) (vec3 1 1 0) in
  mkNearbyBoid 1 (position t - position b) (glm.length (position t - position b))
  ∈ getNearbyBoids (buildVoxelCache farFlocker [b; t]) [b; t] 0 b.
Proof.
  intros b t. apply query_elem; [scenario; lra |].
  exists 1%nat, t. split; [reflexivity |]. split; [| reflexivity].
  split; [lia |]. split; [| now right].
  apply sqrt_le_bound; scenario; lra.
Qed.

Lemma alignment_uniform_heading_witness :
  let b := newBoid (vec3 1 0 0) glm.zero in
  let t := newBoid (vec3 2.5 0 0) (vec3 1 1 0) in
  exists separation cohesion steering e,
    forces (buildVoxelCache farFlocker [b; t]) [b; t] 0 b
    = (separation, vec3 1 1 0, cohesion, steering, e).
Proof.
  intros b t.
  apply (alignment_uniform_heading (buildVoxelCache farFlocker [b; t]) [b; t] 0 b (vec3 1 1 0)).
  - intros Hnil. pose proof restingPair_neighbor as H. cbv zeta in H.
    fold b t in H. rewrite Hnil in H. inversion H.
  - intros j u Hu Hj. destruct j as [| [| j]]; [contradiction | | discriminate].
    now injection Hu as <-.
Defined.

(** X27. Two boids at the same position: for the one at rest (so that the
    field of view does not matter), with a positive perception radius and a
    sample in [0, 1] for the square root, the separation term is a random
    kick of length 1000, the alignment is the velocity of the other boid,
    the cohesion is zero, and three samples of the engine are consumed. *)
Theorem coincidence_kick (fl : Flocker) (b t : Boid) :
  position t = position b ->
  velocity b = glm.zero ->
  0 < PerceptionRadius fl ->
  0 <= eng fl 1%nat <= 1 ->
  exists separation alignment cohesion steering e,
    forces (buildVoxelCache fl [b; t]) [b; t] 0 b
    = (separation, alignment, cohesion, steering, e)
    /\ glm.length separation = 1000
    /\ alignment = velocity t
    /\ cohesion = glm.zero
    /\ forall n, e n = eng fl (S (S (S n))).
Proof.
  intros Hpos Hvel Hr He.
  set (boids := [b; t]).
  set (nb := mkNearbyBoid 1 (position t - position b)
               (glm.length (position t - position b))).
  assert (glm.length (position t - position b) = 0) as Hd0.
  { apply length_eq_0. rewrite Hpos. apply vec3_eq; simpl; ring. }
  assert (nb ∈ getNearbyBoids (buildVoxelCache fl boids) boids 0 b) as Hin.
  { apply query_elem; [lra |]. exists 1%nat, t. split; [reflexivity |].
    split; [| reflexivity]. split; [lia |]. split; [lra | now right]. }
  destruct (getNearbyBoids_count fl boids 0 b) as [_ Hlen]; [simpl; lia |].
  assert (getNearbyBoids (buildVoxelCache fl boids) boids 0 b = [nb]) as Hq.
  { destruct (getNearbyBoids (buildVoxelCache fl boids) boids 0 b) as [| x [| y l]].
    - inversion Hin.
    - apply list_elem_of_singleton in Hin. now subst x.
    - simpl in Hlen. lia. }
  unfold forces. rewrite Hq. cbn [sumNearby length].
  rewrite decide_True by exact Hd0.
  change (eng (buildVoxelCache fl boids)) with (eng fl).
  pose proof (getRandomUniform_length (eng fl) He) as Hunit.
  pose proof (getRandomUniform_consumes_three_steps (eng fl)) as Hthree.
  destruct (getRandomUniform (eng fl)) as [rnd e1]. simpl in Hunit, Hthree.
  change (boids !! boid nb) with (Some t). cbv beta iota zeta.
  rewrite !decide_True by lia.
  eexists _, _, _, _, e1. split; [reflexivity |].
  change (INR 1) with 1. split; [| split; [| split]].
  - replace ((glm.zero + 1000 * rnd) / 1)%V with (1000 * rnd)%V
      by (apply vec3_eq; simpl; field).
    rewrite length_scale by lra. rewrite Hunit. ring.
  - apply vec3_eq; simpl; field.
  - rewrite Hpos. apply vec3_eq; simpl; field.
  - exact Hthree.
Qed.

Lemma coincidence_kick_witness :
  let fl := defaultFlocker [] glm.zero 1 5 in
  let b := newBoid (vec3 1 2 3) glm.zero in
  let t := newBoid (vec3 1 2 3) (vec3 0 1 0) in
  exists separation alignment cohesion steering e,
    forces (buildVoxelCache fl [b; t]) [b; t] 0 b
    = (separation, alignment, cohesion, steering, e)
    /\ glm.length separation = 1000
    /\ alignment = velocity t
    /\ cohesion = glm.zero
    /\ forall n, e n = eng fl (S (S (S n))).
Proof.
  intros fl b t. apply (coincidence_kick fl b t); [reflexivity | reflexivity | | ].
  - simpl. lra.
  - simpl. lra.
Defined.
